(** * Zebra / Swan: scattering models (bsdf.hpp) and camera (camera.hpp)

    A shallow embedding of [src/swan/bsdf.hpp] and [src/zebra/camera.hpp].

    Number model.  A C++ [double] is read as a real number and every
    arithmetic operation as the exact operation on reals: rounding, overflow
    and underflow of IEEE binary64 are outside this model.  What IEEE
    arithmetic answers with an infinity or a NaN on finite operands is kept
    visible instead: a division whose divisor is zero and a square root of a
    negative number are faults of the error monad [M] ([None]), so that
    "[f x = Some v]" says that the C++ call divides by no zero and takes the
    root of no negative number, and that [v] is its result in exact
    arithmetic.

    Two computations that agree as real numbers can round differently, and
    a test ([sint >= 1], a conversion to [int]) can then fall on the other
    side.  The theorems on the code are therefore stated on the values the
    program itself computes (its own intermediate values and branch tests)
    and as bounds; the outcome of a test is stated on the value the program
    tests, and an equation between real numbers is to be read up to
    rounding.  Where binary64 separates what exact arithmetic identifies,
    the copy of the code in [Binary64] is evaluated on the input. *)

From Stdlib Require Import PrimFloat.
From Stdlib Require Import Reals Lra Psatz ZArith Bool.

Open Scope R_scope.

(** ** The error monad *)

Definition M (A : Type) : Type := option A.

Definition ret {A : Type} (a : A) : M A := Some a.

Definition bind {A B : Type} (c : M A) (k : A -> M B) : M B :=
  match c with
  | Some a => k a
  | None => None
  end.

Notation "x <- c ;; k" := (bind c (fun x => k))
  (at level 61, c at next level, right associativity).

(** ** Scalars: [double] and the operations of <cmath> / <algorithm> *)

Abbreviation double := R (only parsing).

(** [a < b], [a >= b], [a <= b] as C++ conditions. *)
Definition ltb (a b : double) : bool := if Rlt_dec a b then true else false.
Definition geb (a b : double) : bool := if Rge_dec a b then true else false.
Definition leb (a b : double) : bool := if Rle_dec a b then true else false.

(** [a / b] on doubles: no finite result when [b] is zero. *)
Definition fdiv (a b : double) : M double :=
  if Req_dec_T b 0 then None else Some (a / b).

(** [std::sqrt]: no finite result on a negative argument. *)
Definition fsqrt (a : double) : M double :=
  if Rlt_dec a 0 then None else Some (sqrt a).

(** [std::asin]: no finite result outside [-1, 1]. *)
Definition fasin (a : double) : M double :=
  if Rlt_dec a (-1) then None else if Rlt_dec 1 a then None else Some (asin a).

(** [std::max(a, b)] is [(a < b) ? b : a]. *)
Definition fmax (a b : double) : double := if ltb a b then b else a.

(** ** vector.hpp, constant.hpp (not part of the sources at hand) *)

Record Vector : Type := mkVector { x_ : double; y_ : double; z_ : double }.

(** Modelled from the spec: [Spectrum] of vector.hpp is missing; the spec
    takes it as an RGB colour value "supporting addition, scalar
    multiplication, and componentwise operations", and the factories build
    it from [Parameter::FindVector()], so it is a [Vector]; [Spectrum()] is
    the zero spectrum. *)
Definition Spectrum : Type := Vector.
Definition Spectrum0 : Spectrum := mkVector 0 0 0.

(** Modelled from the spec: [Vector::operator+], [operator*(double)] and
    [operator/(double)] of vector.hpp are missing; they are the componentwise
    sum, scalar multiplication and scalar division. *)
Definition vadd (u v : Vector) : Vector :=
  mkVector (x_ u + x_ v) (y_ u + y_ v) (z_ u + z_ v).

Definition vscale (v : Vector) (k : double) : Vector :=
  mkVector (x_ v * k) (y_ v * k) (z_ v * k).

Definition vdiv (v : Vector) (k : double) : M Vector :=
  x <- fdiv (x_ v) k ;;
  y <- fdiv (y_ v) k ;;
  z <- fdiv (z_ v) k ;;
  ret (mkVector x y z).

(** Modelled from the spec: [Normalize] of vector.hpp is missing; a
    direction is "normalized to unit length", that is divided by its
    Euclidean length. *)
Definition Length (v : Vector) : M double :=
  fsqrt (x_ v * x_ v + y_ v * y_ v + z_ v * z_ v).

Definition Normalize (v : Vector) : M Vector :=
  len <- Length v ;;
  vdiv v len.

(** Modelled from the spec: [PI] and [INV_PI] of constant.hpp are missing;
    they are pi and 1/pi. *)
Definition INV_PI : double := / PI.

(** ** bsdf.hpp *)

Module Swan.

Definition CosTheta (wi : Vector) : double := z_ wi.

Definition AbsCosTheta (wi : Vector) : double := Rabs (z_ wi).

(** [FresnelDielectric], bsdf.hpp lines 52-74. *)
Definition FresnelDielectric (cosi etai etat : double) : M double :=
  let '(cosi, etai, etat) :=
    if ltb cosi 0 then (- cosi, etat, etai) else (cosi, etai, etat) in
  sini <- fsqrt (fmax 0 (1 - cosi * cosi)) ;;
  q <- fdiv etai etat ;;
  let sint := q * sini in
  if geb sint 1 then ret 1 else
  cost <- fsqrt (fmax 0 (1 - sint * sint)) ;;
  let term1 := etai * cost in
  let term2 := etat * cosi in
  let term3 := etai * cosi in
  let term4 := etat * cost in
  parl <- fdiv (term2 - term1) (term2 + term1) ;;
  perp <- fdiv (term3 - term4) (term3 + term4) ;;
  ret ((parl * parl + perp * perp) * 0.5).

(** What [SampleF] hands back: its return value and the two output
    parameters [wi] and [pdf]. *)
Record Sample : Type := mkSample { value : Spectrum; wi : Vector; pdf : double }.

(** The closed family of scattering models: [class BSDF] (lines 76-91) with
    its three subclasses; [r_] is the stored reflectance. *)
Inductive BSDF : Type :=
  | DiffuseBSDF (r : Spectrum)
  | ReflectBSDF (r : Spectrum)
  | RefractBSDF (r : Spectrum) (etai_ etat_ : double).

Definition r_ (b : BSDF) : Spectrum :=
  match b with
  | DiffuseBSDF r | ReflectBSDF r | RefractBSDF r _ _ => r
  end.

(** [DiffuseBSDF::F], lines 98-100. *)
Definition DiffuseBSDF_F (r : Spectrum) (wo wi : Vector) : Spectrum :=
  vscale r INV_PI.

(** [ReflectBSDF::F], lines 114-116. *)
Definition ReflectBSDF_F (r : Spectrum) (wo wi : Vector) : Spectrum :=
  Spectrum0.

(** [ReflectBSDF::SampleF], lines 118-122. *)
Definition ReflectBSDF_SampleF (r : Spectrum) (wo : Vector) : M Sample :=
  let wi := mkVector (- x_ wo) (- y_ wo) (z_ wo) in
  let pdf := 1 in
  k <- fdiv 1 (CosTheta wi) ;;
  ret (mkSample (vscale r k) wi pdf).

(** [RefractBSDF::F], lines 133-135. *)
Definition RefractBSDF_F (r : Spectrum) (etai_ etat_ : double)
    (wo wi : Vector) : Spectrum :=
  Spectrum0.

(** The block of lines 153-160: the reflectance [re] from the two
    polarisation terms, as [RefractBSDF::SampleF] writes it inline. *)
Definition inline_re (etai etat cosi cost : double) : M double :=
  let term1 := etai * cost in
  let term2 := etat * cosi in
  let term3 := etai * cosi in
  let term4 := etat * cost in
  parl <- fdiv (term2 - term1) (term2 + term1) ;;
  perp <- fdiv (term3 - term4) (term3 + term4) ;;
  ret ((parl * parl + perp * perp) * 0.5).

(** [RefractBSDF::SampleF], lines 137-170. *)
Definition RefractBSDF_SampleF (r : Spectrum) (etai_ etat_ : double)
    (wo : Vector) : M Sample :=
  let entering := ltb (CosTheta wo) 0 in
  let etai := if entering then etai_ else etat_ in
  let etat := if entering then etat_ else etai_ in
  eta <- fdiv etai etat ;;
  let cosi := AbsCosTheta wo in
  let sini := fmax 0 (1 - cosi * cosi) in
  let sint := eta * eta * sini in
  if ltb sint 1 then
    cost <- fsqrt (1 - sint) ;;
    re <- inline_re etai etat cosi cost ;;
    wi <- Normalize
            (vadd (vscale wo eta)
                  (vscale (mkVector 0 0 1)
                          ((eta * cosi - cost) * (if entering then -1 else 1)))) ;;
    let pdf := 1 - re in
    v <- vdiv (vscale r (1 - re)) (AbsCosTheta wi) ;;
    ret (mkSample v wi pdf)
  else
    let re := 1 in
    let wi := mkVector (- x_ wo) (- y_ wo) (z_ wo) in
    let pdf := re in
    v <- vdiv (vscale r re) (AbsCosTheta wi) ;;
    ret (mkSample v wi pdf).

(** Virtual dispatch of [F] and [IsDelta].  [IsDelta] is [false] in the base
    class (line 85) and overridden to [true] by the two specular subclasses
    (lines 124, 172). *)
Definition F (b : BSDF) (wo wi : Vector) : Spectrum :=
  match b with
  | DiffuseBSDF r => DiffuseBSDF_F r wo wi
  | ReflectBSDF r => ReflectBSDF_F r wo wi
  | RefractBSDF r etai_ etat_ => RefractBSDF_F r etai_ etat_ wo wi
  end.

Definition IsDelta (b : BSDF) : bool :=
  match b with
  | DiffuseBSDF _ => false
  | ReflectBSDF _ => true
  | RefractBSDF _ _ _ => true
  end.

(** *** Named prefixes of the two Fresnel computations

    The claims speak of intermediate values of [FresnelDielectric] and of
    [RefractBSDF::SampleF]; the definitions below are the corresponding
    prefixes of the two bodies, under the names of their local variables. *)

(** [sint] of [FresnelDielectric] (lines 54-60): the transmitted sine. *)
Definition sinTransmitted (cosi etai etat : double) : M double :=
  let '(cosi, etai, etat) :=
    if ltb cosi 0 then (- cosi, etat, etai) else (cosi, etai, etat) in
  sini <- fsqrt (fmax 0 (1 - cosi * cosi)) ;;
  q <- fdiv etai etat ;;
  ret (q * sini).

(** The value of lines 66-73 (and of lines 153-160) as a function of the
    four locals, with the quotients of the reals. *)
Definition reflectance (cosi etai etat cost : double) : double :=
  let parl := (etat * cosi - etai * cost) / (etat * cosi + etai * cost) in
  let perp := (etai * cosi - etat * cost) / (etai * cosi + etat * cost) in
  (parl * parl + perp * perp) * 0.5.

(** [entering], [etai], [etat] of [RefractBSDF::SampleF] (lines 138-140). *)
Definition entering (wo : Vector) : bool := ltb (CosTheta wo) 0.

Definition etaIncident (etai_ etat_ : double) (wo : Vector) : double :=
  if entering wo then etai_ else etat_.

Definition etaTransmitted (etai_ etat_ : double) (wo : Vector) : double :=
  if entering wo then etat_ else etai_.

(** [sint] of [RefractBSDF::SampleF] (lines 142-147): the squared
    transmitted sine. *)
Definition sin2Transmitted (etai_ etat_ : double) (wo : Vector) : M double :=
  eta <- fdiv (etaIncident etai_ etat_ wo) (etaTransmitted etai_ etat_ wo) ;;
  let cosi := AbsCosTheta wo in
  let sini := fmax 0 (1 - cosi * cosi) in
  ret (eta * eta * sini).

(** [re] of the refraction branch of [RefractBSDF::SampleF] (lines 138-160). *)
Definition SampleF_re (etai_ etat_ : double) (wo : Vector) : M double :=
  sint <- sin2Transmitted etai_ etat_ wo ;;
  cost <- fsqrt (1 - sint) ;;
  inline_re (etaIncident etai_ etat_ wo) (etaTransmitted etai_ etat_ wo)
            (AbsCosTheta wo) cost.

(** The unnormalised refracted direction of line 162 (lines 138-162). *)
Definition refracted (etai_ etat_ : double) (wo : Vector) : M Vector :=
  let entering := entering wo in
  eta <- fdiv (etaIncident etai_ etat_ wo) (etaTransmitted etai_ etat_ wo) ;;
  let cosi := AbsCosTheta wo in
  let sini := fmax 0 (1 - cosi * cosi) in
  let sint := eta * eta * sini in
  cost <- fsqrt (1 - sint) ;;
  ret (vadd (vscale wo eta)
            (vscale (mkVector 0 0 1)
                    ((eta * cosi - cost) * (if entering then -1 else 1)))).

(** The mirror image of [wo] about the local normal (lines 119, 166). *)
Definition mirror (wo : Vector) : Vector :=
  mkVector (- x_ wo) (- y_ wo) (z_ wo).

Section Sampling.

(** The process-wide random source of lines 21-22: [Generator] is the state
    of [std::default_random_engine], and [distribution g] is one call of
    [distribution(generator)]: a sample and the advanced state. *)
Variable Generator : Type.
Variable distribution : Generator -> double * Generator.

(** [CosineWeightedHemisphere], lines 34-50. *)
Definition CosineWeightedHemisphere (g : Generator) : M (Vector * Generator) :=
  let '(u1, g) := distribution g in
  let '(u2, g) := distribution g in
  s <- fsqrt u1 ;;
  theta <- fasin s ;;
  let phi := 2 * PI * u2 in
  let sini := sin theta in
  let cosi := cos theta in
  let xs := sini * cos phi in
  let ys := sini * sin phi in
  let zs := cosi in
  v <- Normalize (mkVector xs ys zs) ;;
  ret (v, g).

(** [DiffuseBSDF::SampleF], lines 102-106. *)
Definition DiffuseBSDF_SampleF (r : Spectrum) (wo : Vector) (g : Generator)
    : M (Sample * Generator) :=
  s <- CosineWeightedHemisphere g ;;
  let '(wi, g) := s in
  let pdf := CosTheta wi * INV_PI in
  ret (mkSample (DiffuseBSDF_F r wo wi) wi pdf, g).

(** Virtual dispatch of [SampleF]; the two specular models leave the
    generator untouched. *)
Definition SampleF (b : BSDF) (wo : Vector) (g : Generator)
    : M (Sample * Generator) :=
  match b with
  | DiffuseBSDF r => DiffuseBSDF_SampleF r wo g
  | ReflectBSDF r => s <- ReflectBSDF_SampleF r wo ;; ret (s, g)
  | RefractBSDF r etai_ etat_ =>
      s <- RefractBSDF_SampleF r etai_ etat_ wo ;; ret (s, g)
  end.

End Sampling.

End Swan.

(** ** camera.hpp *)

Module Zebra.

Import Swan.

(** [Point2i]: a pair of [int]; [Point2]: a pair of [double] (point.hpp is
    not part of the sources at hand). *)
Record Point2i : Type := mkPoint2i { ix_ : Z; iy_ : Z }.
Record Point2 : Type := mkPoint2 { px_ : double; py_ : double }.

(** Conversion of a [double] to [int] as the constructor call of lines 31-32
    performs it: truncation toward zero; outside the range of [int] the
    conversion is undefined, a fault here. *)
Definition trunc (a : double) : Z :=
  if Rlt_dec a 0 then (- Int_part (- a))%Z else Int_part a.

Definition to_int (a : double) : M Z :=
  let t := trunc a in
  if ((-2147483648 <=? t) && (t <=? 2147483647))%Z then Some t else None.

(** [Camera::RasterToWorld], lines 23-27; [resolution] is [resolution_]. *)
Definition RasterToWorld (resolution : Point2i) (p : Point2) : M Vector :=
  qx <- fdiv (px_ p) (IZR (ix_ resolution)) ;;
  qy <- fdiv (py_ p) (IZR (iy_ resolution)) ;;
  Normalize (mkVector (qx - 0.5) (0.5 - qy) (-1)).

(** [Camera::WorldToRaster], lines 29-33. *)
Definition WorldToRaster (resolution : Point2i) (v : Vector) : M Point2i :=
  if leb (z_ v) 0 then ret (mkPoint2i (-1) (-1)) else
  x <- to_int ((0.5 - x_ v) * IZR (ix_ resolution)) ;;
  y <- to_int ((0.5 + y_ v) * IZR (iy_ resolution)) ;;
  ret (mkPoint2i x y).

(** [Point]: three [double]s.  Modelled from the spec: point.hpp is missing;
    [Point(0)] is the origin and the difference of two points is the
    [Vector] between them, component by component. *)
Record Point : Type := mkPoint { ptx_ : double; pty_ : double; ptz_ : double }.

(** [Camera::DirectionToCamera], lines 35-37. *)
Definition DirectionToCamera (p : Point) : Vector :=
  mkVector (0 - ptx_ p) (0 - pty_ p) (0 - ptz_ p).

(** Arithmetic on [int]: a result outside the range of [int] is undefined
    behaviour, a fault here. *)
Definition int_range (z : Z) : bool :=
  ((-2147483648 <=? z) && (z <=? 2147483647))%Z.

Definition int_checked (z : Z) : M Z :=
  if int_range z then Some z else None.

(** [Camera::RasterToIndex], lines 39-41. *)
Definition RasterToIndex (resolution raster : Point2i) : M Z :=
  m <- int_checked (iy_ raster * ix_ resolution) ;;
  int_checked (m + ix_ raster).

(** [Camera::RasterIsValid], lines 43-45. *)
Definition RasterIsValid (resolution p : Point2i) : bool :=
  ((0 <=? ix_ p) && (0 <=? iy_ p)
   && (ix_ p <? ix_ resolution) && (iy_ p <? iy_ resolution))%Z.

End Zebra.

(** ** The same bodies on IEEE binary64

    The functions of bsdf.hpp that the concrete inputs below go through,
    once more over Rocq's primitive binary64 floats, operation for
    operation: here every operation rounds, a division by zero answers an
    infinity or a NaN, and nothing is a fault.  This copy is only ever
    evaluated: on the inputs where the real-number model reports a
    divergence, to replay them in the arithmetic of the C++ program, and on
    inputs where rounding separates two computations that agree in exact
    arithmetic. *)

Module Binary64.

Local Open Scope float_scope.

Record Vector : Type := mkVector { x_ : float; y_ : float; z_ : float }.

Definition fmax (a b : float) : float := if a <? b then b else a.

(** Modelled from the spec: the operators of vector.hpp and [Normalize], as
    above. *)
Definition vadd (u v : Vector) : Vector :=
  mkVector (x_ u + x_ v) (y_ u + y_ v) (z_ u + z_ v).

Definition vscale (v : Vector) (k : float) : Vector :=
  mkVector (x_ v * k) (y_ v * k) (z_ v * k).

Definition vdiv (v : Vector) (k : float) : Vector :=
  mkVector (x_ v / k) (y_ v / k) (z_ v / k).

Definition Normalize (v : Vector) : Vector :=
  vdiv v (PrimFloat.sqrt (x_ v * x_ v + y_ v * y_ v + z_ v * z_ v)).

Definition CosTheta (wi : Vector) : float := z_ wi.

Definition AbsCosTheta (wi : Vector) : float := PrimFloat.abs (z_ wi).

(** [FresnelDielectric], lines 52-74. *)
Definition FresnelDielectric (cosi etai etat : float) : float :=
  let '(cosi, etai, etat) :=
    if cosi <? 0 then (- cosi, etat, etai) else (cosi, etai, etat) in
  let sini := PrimFloat.sqrt (fmax 0 (1 - cosi * cosi)) in
  let sint := etai / etat * sini in
  if 1 <=? sint then 1 else
  let cost := PrimFloat.sqrt (fmax 0 (1 - sint * sint)) in
  let term1 := etai * cost in
  let term2 := etat * cosi in
  let term3 := etai * cosi in
  let term4 := etat * cost in
  let parl := (term2 - term1) / (term2 + term1) in
  let perp := (term3 - term4) / (term3 + term4) in
  (parl * parl + perp * perp) * 0.5.

Record Sample : Type := mkSample { value : Vector; wi : Vector; pdf : float }.

(** [ReflectBSDF::SampleF], lines 118-122. *)
Definition ReflectBSDF_SampleF (r wo : Vector) : Sample :=
  let wi := mkVector (- x_ wo) (- y_ wo) (z_ wo) in
  let pdf := 1 in
  mkSample (vscale r (1 / CosTheta wi)) wi pdf.

(** [RefractBSDF::SampleF], lines 137-170. *)
Definition RefractBSDF_SampleF (r : Vector) (etai_ etat_ : float)
    (wo : Vector) : Sample :=
  let entering := CosTheta wo <? 0 in
  let etai := if entering then etai_ else etat_ in
  let etat := if entering then etat_ else etai_ in
  let eta := etai / etat in
  let cosi := AbsCosTheta wo in
  let sini := fmax 0 (1 - cosi * cosi) in
  let sint := eta * eta * sini in
  if sint <? 1 then
    let cost := PrimFloat.sqrt (1 - sint) in
    let term1 := etai * cost in
    let term2 := etat * cosi in
    let term3 := etai * cosi in
    let term4 := etat * cost in
    let parl := (term2 - term1) / (term2 + term1) in
    let perp := (term3 - term4) / (term3 + term4) in
    let re := (parl * parl + perp * perp) * 0.5 in
    let wi := Normalize
                (vadd (vscale wo eta)
                      (vscale (mkVector 0 0 1)
                              ((eta * cosi - cost) * (if entering then -1 else 1)))) in
    let pdf := 1 - re in
    mkSample (vdiv (vscale r (1 - re)) (AbsCosTheta wi)) wi pdf
  else
    let re := 1 in
    let wi := mkVector (- x_ wo) (- y_ wo) (z_ wo) in
    let pdf := re in
    mkSample (vdiv (vscale r re) (AbsCosTheta wi)) wi pdf.

(** [re] of the refraction branch of [RefractBSDF::SampleF], lines
    138-160. *)
Definition SampleF_re (etai_ etat_ : float) (wo : Vector) : float :=
  let entering := CosTheta wo <? 0 in
  let etai := if entering then etai_ else etat_ in
  let etat := if entering then etat_ else etai_ in
  let eta := etai / etat in
  let cosi := AbsCosTheta wo in
  let sini := fmax 0 (1 - cosi * cosi) in
  let sint := eta * eta * sini in
  let cost := PrimFloat.sqrt (1 - sint) in
  let term1 := etai * cost in
  let term2 := etat * cosi in
  let term3 := etai * cosi in
  let term4 := etat * cost in
  let parl := (term2 - term1) / (term2 + term1) in
  let perp := (term3 - term4) / (term3 + term4) in
  (parl * parl + perp * perp) * 0.5.

End Binary64.

(** ** Notions used in the statements *)

(** The squared Euclidean length of a vector. *)
Definition norm2 (v : Vector) : double :=
  x_ v * x_ v + y_ v * y_ v + z_ v * z_ v.

(** The image of a direction on the other side of the surface. *)
Definition flip (v : Vector) : Vector :=
  mkVector (x_ v) (y_ v) (- z_ v).

(** * Verification *)

Import Swan.

(** ** The scalar operations *)

Lemma ltb_true (a b : double) : a < b -> ltb a b = true.
Proof. intros H; unfold ltb; destruct (Rlt_dec a b); [reflexivity | contradiction]. Qed.

Lemma ltb_false (a b : double) : b <= a -> ltb a b = false.
Proof. intros H; unfold ltb; destruct (Rlt_dec a b); [lra | reflexivity]. Qed.

Lemma geb_true (a b : double) : b <= a -> geb a b = true.
Proof. intros H; unfold geb; destruct (Rge_dec a b); [reflexivity | lra]. Qed.

Lemma geb_false (a b : double) : a < b -> geb a b = false.
Proof. intros H; unfold geb; destruct (Rge_dec a b); [lra | reflexivity]. Qed.

Lemma leb_true (a b : double) : a <= b -> leb a b = true.
Proof. intros H; unfold leb; destruct (Rle_dec a b); [reflexivity | contradiction]. Qed.

Lemma leb_false (a b : double) : b < a -> leb a b = false.
Proof. intros H; unfold leb; destruct (Rle_dec a b); [lra | reflexivity]. Qed.

Lemma fdiv_Some (a b : double) : b <> 0 -> fdiv a b = Some (a / b).
Proof. intros H; unfold fdiv; destruct (Req_dec_T b 0); [contradiction | reflexivity]. Qed.

Lemma fdiv_None (a : double) : fdiv a 0 = None.
Proof. unfold fdiv; destruct (Req_dec_T 0 0); [reflexivity | congruence]. Qed.

Lemma fsqrt_Some (a : double) : 0 <= a -> fsqrt a = Some (sqrt a).
Proof. intros H; unfold fsqrt; destruct (Rlt_dec a 0); [lra | reflexivity]. Qed.

Lemma fasin_Some (a : double) : -1 <= a <= 1 -> fasin a = Some (asin a).
Proof.
  intros H; unfold fasin.
  destruct (Rlt_dec a (-1)); [lra |]. destruct (Rlt_dec 1 a); [lra | reflexivity].
Qed.

Lemma fmax_l (a b : double) : b <= a -> fmax a b = a.
Proof. intros H; unfold fmax; now rewrite ltb_false. Qed.

Lemma fmax_r (a b : double) : a < b -> fmax a b = b.
Proof. intros H; unfold fmax; now rewrite ltb_true. Qed.

Lemma fmax_nonneg (a : double) : 0 <= fmax 0 a.
Proof. destruct (Rlt_dec 0 a); [rewrite fmax_r | rewrite fmax_l]; lra. Qed.

Lemma vdiv_Some (v : Vector) (k : double) :
  k <> 0 -> vdiv v k = Some (mkVector (x_ v / k) (y_ v / k) (z_ v / k)).
Proof. intros H; unfold vdiv; now rewrite !fdiv_Some. Qed.

Lemma vdiv_None (v : Vector) : vdiv v 0 = None.
Proof. unfold vdiv; now rewrite fdiv_None. Qed.

Lemma vdiv_defined (v : Vector) (k : double) :
  (exists u, vdiv v k = Some u) <-> k <> 0.
Proof.
  split.
  - intros [u Hu] ->. now rewrite vdiv_None in Hu.
  - intros H. rewrite (vdiv_Some _ _ H). now eexists.
Qed.

(** ** Records and evaluation at given values *)

Lemma Vector_eq (x y z x' y' z' : double) :
  x = x' -> y = y' -> z = z' -> mkVector x y z = mkVector x' y' z'.
Proof. now intros -> -> ->. Qed.

Lemma Sample_eq (v v' w w' : Vector) (p p' : double) :
  v = v' -> w = w' -> p = p' -> mkSample v w p = mkSample v' w' p'.
Proof. now intros -> -> ->. Qed.

(** Evaluation of the fallible operations at given values. *)
Lemma fdiv_eq (a b q : double) : b <> 0 -> q * b = a -> fdiv a b = Some q.
Proof.
  intros Hb Hq. rewrite fdiv_Some by assumption. f_equal.
  rewrite <- Hq. field. assumption.
Qed.

Lemma fsqrt_eq (a b : double) : 0 <= b -> b * b = a -> fsqrt a = Some b.
Proof.
  intros Hb Hq. rewrite fsqrt_Some by nra. f_equal.
  apply sqrt_lem_1; [nra | assumption | assumption].
Qed.

Lemma vdiv_eq (v u : Vector) (k : double) :
  k <> 0 -> x_ u * k = x_ v -> y_ u * k = y_ v -> z_ u * k = z_ v ->
  vdiv v k = Some u.
Proof.
  intros Hk Hx Hy Hz. unfold vdiv.
  rewrite (fdiv_eq _ _ _ Hk Hx), (fdiv_eq _ _ _ Hk Hy), (fdiv_eq _ _ _ Hk Hz).
  now destruct u.
Qed.

Lemma Normalize_eq (v u : Vector) (len : double) :
  0 < len -> len * len = x_ v * x_ v + y_ v * y_ v + z_ v * z_ v ->
  x_ u * len = x_ v -> y_ u * len = y_ v -> z_ u * len = z_ v ->
  Normalize v = Some u.
Proof.
  intros Hl Hsq Hx Hy Hz. unfold Normalize, Length.
  rewrite (fsqrt_eq _ len) by lra. cbn [bind].
  apply vdiv_eq; lra.
Qed.

(** ** Normalize *)

Lemma norm2_nonneg (v : Vector) : 0 <= x_ v * x_ v + y_ v * y_ v + z_ v * z_ v.
Proof. nra. Qed.

Lemma Length_Some (v : Vector) :
  Length v = Some (sqrt (x_ v * x_ v + y_ v * y_ v + z_ v * z_ v)).
Proof. unfold Length. apply fsqrt_Some, norm2_nonneg. Qed.

(** [Normalize] returns exactly on vectors of non-zero length, and then
    divides each component by the (positive) length. *)
Lemma Normalize_Some (v : Vector) :
  let len := sqrt (x_ v * x_ v + y_ v * y_ v + z_ v * z_ v) in
  0 < x_ v * x_ v + y_ v * y_ v + z_ v * z_ v ->
  0 < len /\
  Normalize v = Some (mkVector (x_ v / len) (y_ v / len) (z_ v / len)).
Proof.
  intros len Hpos. assert (Hl : 0 < len) by now apply sqrt_lt_R0.
  split; [assumption |].
  unfold Normalize. rewrite Length_Some. cbn [bind]. fold len.
  apply vdiv_Some. lra.
Qed.

Lemma Normalize_inv (v w : Vector) :
  Normalize v = Some w ->
  exists len, 0 < len /\ w = mkVector (x_ v / len) (y_ v / len) (z_ v / len).
Proof.
  unfold Normalize. rewrite Length_Some. cbn [bind].
  set (len := sqrt _). intros H.
  assert (Hl : len <> 0).
  { intros E. rewrite E, vdiv_None in H. discriminate. }
  rewrite vdiv_Some in H by assumption. inversion H.
  exists len. split; [| reflexivity].
  pose proof (sqrt_pos (x_ v * x_ v + y_ v * y_ v + z_ v * z_ v)). fold len in H0. lra.
Qed.

(** ** FresnelDielectric *)

(** A negative cosine swaps the indices and is negated (lines 54-57). *)
Lemma FresnelDielectric_neg (c etai etat : double) :
  c < 0 -> FresnelDielectric c etai etat = FresnelDielectric (- c) etat etai.
Proof.
  intros Hc. unfold FresnelDielectric.
  rewrite (ltb_true c 0) by lra. rewrite (ltb_false (- c) 0) by lra.
  reflexivity.
Qed.

Lemma inline_re_Some (etai etat cosi cost : double) :
  0 < etai -> 0 < etat -> 0 <= cosi -> 0 < cost ->
  inline_re etai etat cosi cost = Some (reflectance cosi etai etat cost).
Proof.
  intros Hi Ht Hc Hs. unfold inline_re, reflectance.
  assert (0 < etai * cost) by nra. assert (0 < etat * cost) by nra.
  assert (0 <= etai * cosi) by nra. assert (0 <= etat * cosi) by nra.
  rewrite !fdiv_Some by lra. reflexivity.
Qed.

Lemma sqrt_le_1 (a : R) : a <= 1 -> sqrt a <= 1.
Proof. intros H. rewrite <- sqrt_1. now apply sqrt_le_1_alt. Qed.

Lemma sint_nonneg (c etai etat : double) :
  0 < etai -> 0 < etat -> 0 <= etai / etat * sqrt (fmax 0 (1 - c * c)).
Proof.
  intros Hi Ht. apply Rmult_le_pos; [| apply sqrt_pos].
  apply Rlt_le, Rdiv_lt_0_compat; lra.
Qed.

(** What the body computes on a non-negative cosine. *)
Lemma FresnelDielectric_nonneg (c etai etat : double) :
  0 <= c -> 0 < etai -> 0 < etat ->
  let sint := etai / etat * sqrt (fmax 0 (1 - c * c)) in
  FresnelDielectric c etai etat =
    if Rge_dec sint 1 then Some 1
    else Some (reflectance c etai etat (sqrt (1 - sint * sint))).
Proof.
  intros Hc Hi Ht sint. unfold FresnelDielectric.
  rewrite (ltb_false c 0) by lra.
  rewrite fsqrt_Some by apply fmax_nonneg. cbn [bind].
  rewrite fdiv_Some by lra. cbn [bind]. fold sint.
  unfold geb. destruct (Rge_dec sint 1) as [Hge | Hlt]; [reflexivity |].
  assert (H0 : 0 <= sint).
  { unfold sint. apply Rmult_le_pos; [| apply sqrt_pos].
    apply Rlt_le, Rdiv_lt_0_compat; lra. }
  assert (H1 : 0 < 1 - sint * sint) by nra.
  rewrite fmax_r by lra. rewrite fsqrt_Some by lra. cbn [bind].
  assert (0 < sqrt (1 - sint * sint)) by now apply sqrt_lt_R0.
  pose proof (inline_re_Some etai etat c _ Hi Ht Hc H) as E.
  unfold inline_re in E. exact E.
Qed.

Lemma ratio_bound (a b : R) :
  0 <= a -> 0 <= b -> 0 < a + b -> -1 <= (a - b) / (a + b) <= 1.
Proof.
  intros Ha Hb Hab. split.
  - apply Rmult_le_reg_r with (a + b); [assumption |].
    unfold Rdiv. rewrite Rmult_assoc, Rinv_l by lra. lra.
  - apply Rmult_le_reg_r with (a + b); [assumption |].
    unfold Rdiv. rewrite Rmult_assoc, Rinv_l by lra. lra.
Qed.

Lemma reflectance_range (cosi etai etat cost : double) :
  0 < etai -> 0 < etat -> 0 <= cosi -> 0 < cost ->
  0 <= reflectance cosi etai etat cost <= 1.
Proof.
  intros Hi Ht Hc Hs. unfold reflectance.
  assert (0 < etai * cost) by nra. assert (0 < etat * cost) by nra.
  assert (0 <= etai * cosi) by nra. assert (0 <= etat * cosi) by nra.
  assert (P : -1 <= (etat * cosi - etai * cost) / (etat * cosi + etai * cost) <= 1)
    by (apply ratio_bound; lra).
  assert (Q : -1 <= (etai * cosi - etat * cost) / (etai * cosi + etat * cost) <= 1)
    by (apply ratio_bound; lra).
  cbv zeta.
  set (p := (etat * cosi - etai * cost) / (etat * cosi + etai * cost)) in *.
  set (q := (etai * cosi - etat * cost) / (etai * cosi + etat * cost)) in *.
  nra.
Qed.

Lemma sinTransmitted_neg (c etai etat : double) :
  c < 0 -> sinTransmitted c etai etat = sinTransmitted (- c) etat etai.
Proof.
  intros Hc. unfold sinTransmitted.
  rewrite (ltb_true c 0) by lra. rewrite (ltb_false (- c) 0) by lra.
  reflexivity.
Qed.

Lemma sinTransmitted_nonneg (c etai etat : double) :
  0 <= c -> etat <> 0 ->
  sinTransmitted c etai etat = Some (etai / etat * sqrt (fmax 0 (1 - c * c))).
Proof.
  intros Hc Ht. unfold sinTransmitted.
  rewrite (ltb_false c 0) by lra.
  rewrite fsqrt_Some by apply fmax_nonneg. cbn [bind].
  rewrite fdiv_Some by lra. reflexivity.
Qed.

(** On a non-negative cosine: defined, within [0, 1], and 1 at and beyond
    the threshold [sint >= 1]. *)
Lemma FresnelDielectric_nonneg_range (c etai etat : double) :
  0 <= c -> 0 < etai -> 0 < etat ->
  (exists v, FresnelDielectric c etai etat = Some v /\ 0 <= v <= 1) /\
  (exists st, sinTransmitted c etai etat = Some st /\
     (1 <= st -> FresnelDielectric c etai etat = Some 1)).
Proof.
  intros Hc Hi Ht.
  pose proof (FresnelDielectric_nonneg c etai etat Hc Hi Ht) as E. cbv zeta in E.
  rewrite sinTransmitted_nonneg by lra.
  set (sint := etai / etat * sqrt (fmax 0 (1 - c * c))) in *.
  assert (H0 : 0 <= sint).
  { unfold sint. apply Rmult_le_pos; [| apply sqrt_pos].
    apply Rlt_le, Rdiv_lt_0_compat; lra. }
  destruct (Rge_dec sint 1) as [Hge | Hlt].
  - split.
    + exists 1. split; [assumption | lra].
    + exists sint. split; [reflexivity | intros _; assumption].
  - split.
    + eexists. split; [eassumption |].
      apply reflectance_range; try assumption.
      apply sqrt_lt_R0. nra.
    + exists sint. split; [reflexivity | intros; lra].
Qed.

(** On every cosine, by the swap of lines 54-57. *)
Lemma FresnelDielectric_total (c etai etat : double) :
  0 < etai -> 0 < etat ->
  (exists v, FresnelDielectric c etai etat = Some v /\ 0 <= v <= 1) /\
  (exists st, sinTransmitted c etai etat = Some st /\
     (1 <= st -> FresnelDielectric c etai etat = Some 1)).
Proof.
  intros Hi Ht. destruct (Rlt_dec c 0) as [Hneg | Hpos].
  - rewrite FresnelDielectric_neg, sinTransmitted_neg by assumption.
    apply FresnelDielectric_nonneg_range; lra.
  - apply FresnelDielectric_nonneg_range; lra.
Qed.

(** C5. For every cosine c in [-1,1] and every pair of positive refractive
    indices, FresnelDielectric(c, etai, etat) returns a value in [0,1]; the
    transmitted sine of lines 59-60 is defined, and whenever it is at least
    1 (total internal reflection) the function returns exactly 1. *)
Theorem FresnelDielectric_unit_interval (c etai etat : double) :
  -1 <= c <= 1 -> 0 < etai -> 0 < etat ->
  (exists v, FresnelDielectric c etai etat = Some v /\ 0 <= v <= 1) /\
  (exists st, sinTransmitted c etai etat = Some st /\
     (1 <= st -> FresnelDielectric c etai etat = Some 1)).
Proof. intros _ Hi Ht. now apply FresnelDielectric_total. Qed.

Lemma FresnelDielectric_unit_interval_witness :
  (exists v, FresnelDielectric (1 / 2) 1 (3 / 2) = Some v /\ 0 <= v <= 1) /\
  (exists st, sinTransmitted (1 / 2) 1 (3 / 2) = Some st /\
     (1 <= st -> FresnelDielectric (1 / 2) 1 (3 / 2) = Some 1)).
Proof. apply FresnelDielectric_unit_interval; lra. Defined.

Lemma fmax_0_nonneg (a : double) : 0 <= a -> fmax 0 a = a.
Proof.
  intros H. destruct (Rlt_dec 0 a); [now apply fmax_r |].
  rewrite fmax_l; lra.
Qed.

Lemma reflectance_grazing (etai etat cost : double) :
  0 < etai -> 0 < etat -> 0 < cost -> reflectance 0 etai etat cost = 1.
Proof. intros Hi Ht Hc. unfold reflectance. cbv zeta.
  replace 0.5 with (1 / 2) by lra. field. split; nra. Qed.

(** At grazing incidence the reflectance is 1 whatever the indices. *)
Lemma FresnelDielectric_grazing (etai etat : double) :
  0 < etai -> 0 < etat -> FresnelDielectric 0 etai etat = Some 1.
Proof.
  intros Hi Ht.
  pose proof (FresnelDielectric_nonneg 0 etai etat (Rle_refl 0) Hi Ht) as E.
  cbv zeta in E. rewrite E. clear E.
  replace (1 - 0 * 0) with 1 by ring.
  rewrite fmax_r by lra. rewrite sqrt_1, Rmult_1_r.
  destruct (Rge_dec (etai / etat) 1) as [Hge | Hlt]; [reflexivity |].
  assert (0 < etai / etat) by (apply Rdiv_lt_0_compat; lra).
  rewrite reflectance_grazing; try assumption; [reflexivity |].
  apply sqrt_lt_R0. nra.
Qed.






(** C6. For every cosine c in [-1,1] and all positive indices a, b,
    FresnelDielectric(c, a, b) and FresnelDielectric(-c, b, a) return the
    same value. *)
Theorem FresnelDielectric_symmetry (c a b : double) :
  -1 <= c <= 1 -> 0 < a -> 0 < b ->
  exists v, FresnelDielectric c a b = Some v /\
            FresnelDielectric (- c) b a = Some v.
Proof.
  intros Hc Ha Hb.
  assert (E : FresnelDielectric c a b = FresnelDielectric (- c) b a).
  { destruct (Rtotal_order c 0) as [Hneg | [-> | Hpos]].
    - now apply FresnelDielectric_neg.
    - rewrite Ropp_0. now rewrite !FresnelDielectric_grazing.
    - rewrite (FresnelDielectric_neg (- c)) by lra. now rewrite Ropp_involutive. }
  destruct (proj1 (FresnelDielectric_total c a b Ha Hb)) as [v [Hv _]].
  exists v. split; [assumption | now rewrite <- E].
Qed.

Lemma FresnelDielectric_symmetry_witness :
  exists v, FresnelDielectric (1 / 2) 1 (3 / 2) = Some v /\
            FresnelDielectric (- (1 / 2)) (3 / 2) 1 = Some v.
Proof. apply FresnelDielectric_symmetry; lra. Defined.

(** ** ReflectBSDF *)

(** [ReflectBSDF::SampleF] returns exactly off the grazing direction, and
    then scales the reflectance by the signed [1 / CosTheta(wi)]. *)
Lemma ReflectBSDF_SampleF_Some (r : Spectrum) (wo : Vector) :
  z_ wo <> 0 ->
  ReflectBSDF_SampleF r wo = Some (mkSample (vscale r (1 / z_ wo)) (mirror wo) 1).
Proof.
  intros Hz. unfold ReflectBSDF_SampleF, CosTheta. cbn [z_].
  now rewrite fdiv_Some.
Qed.

Lemma ReflectBSDF_SampleF_None (r : Spectrum) (wo : Vector) :
  z_ wo = 0 -> ReflectBSDF_SampleF r wo = None.
Proof.
  intros Hz. unfold ReflectBSDF_SampleF, CosTheta. cbn [z_].
  now rewrite Hz, fdiv_None.
Qed.

Lemma ReflectBSDF_SampleF_defined (r : Spectrum) (wo : Vector) :
  (exists s, ReflectBSDF_SampleF r wo = Some s) <-> z_ wo <> 0.
Proof.
  split.
  - intros [s Hs] Hz. now rewrite ReflectBSDF_SampleF_None in Hs.
  - intros Hz. rewrite ReflectBSDF_SampleF_Some by assumption. now eexists.
Qed.

(** Above the surface the value is the reflectance over [|cos(wi)|]. *)
Lemma ReflectBSDF_SampleF_above (r : Spectrum) (wo : Vector) :
  0 < z_ wo ->
  exists s, ReflectBSDF_SampleF r wo = Some s /\
    wi s = mkVector (- x_ wo) (- y_ wo) (z_ wo) /\ pdf s = 1 /\
    vdiv r (AbsCosTheta (wi s)) = Some (value s).
Proof.
  intros Hz. rewrite ReflectBSDF_SampleF_Some by lra.
  eexists. split; [reflexivity |]. cbn [wi pdf value]. unfold mirror.
  repeat split. unfold AbsCosTheta. cbn [z_]. rewrite Rabs_right by lra.
  apply vdiv_eq; [lra | | |]; cbn [x_ y_ z_ vscale]; field; lra.
Qed.

(** C1. At wo = (0, 0, -1), a direction with wo.z <> 0, and reflectance
    (1, 1, 1), ReflectBSDF::SampleF sets wi to the mirror image (0, 0, -1)
    and pdf to 1 but returns (-1, -1, -1): the reflectance times the signed
    1 / cos(wi), where reflectance / |cos(wi)| is (1, 1, 1).  IsDelta() is
    true and F is the zero spectrum. *)
Theorem ReflectBSDF_SampleF_below_surface :
  let r := mkVector 1 1 1 in
  let wo := mkVector 0 0 (-1) in
  exists s, ReflectBSDF_SampleF r wo = Some s /\
    wi s = mkVector 0 0 (-1) /\ pdf s = 1 /\
    value s = mkVector (-1) (-1) (-1) /\
    vdiv r (AbsCosTheta (wi s)) = Some (mkVector 1 1 1) /\
    value s <> mkVector 1 1 1 /\
    IsDelta (ReflectBSDF r) = true /\
    (forall wo' wi', F (ReflectBSDF r) wo' wi' = mkVector 0 0 0).
Proof.
  intros r wo.
  exists (mkSample (mkVector (-1) (-1) (-1)) (mkVector 0 0 (-1)) 1).
  split.
  - rewrite ReflectBSDF_SampleF_Some by (cbn; lra).
    unfold mirror, vscale, r, wo. cbn [x_ y_ z_].
    f_equal. apply Sample_eq; [apply Vector_eq; lra | apply Vector_eq; lra | reflexivity].
  - cbn [wi pdf value]. repeat split.
    + unfold AbsCosTheta, r. cbn [z_]. apply vdiv_eq; cbn [x_ y_ z_];
        rewrite Rabs_left by lra; lra.
    + intros H. inversion H. lra.
Qed.

(** ** DiffuseBSDF *)

Section DiffuseFacts.

Variable Generator : Type.
Variable distribution : Generator -> double * Generator.

(** The uniform source produces samples in [0, 1). *)
Hypothesis distribution_range : forall g, 0 <= fst (distribution g) < 1.

Lemma unit_sphere (theta phi : R) :
  sin theta * cos phi * (sin theta * cos phi)
  + sin theta * sin phi * (sin theta * sin phi)
  + cos theta * cos theta = 1.
Proof.
  pose proof (sin2_cos2 theta) as Ht. pose proof (sin2_cos2 phi) as Hp.
  unfold Rsqr in Ht, Hp. nra.
Qed.

(** The sampler always returns, and returns the direction of the spherical
    angles theta = asin(sqrt(u1)), phi = 2 pi u2. *)
Lemma CosineWeightedHemisphere_Some (g : Generator) :
  exists v g', CosineWeightedHemisphere Generator distribution g = Some (v, g').
Proof.
  unfold CosineWeightedHemisphere.
  pose proof (distribution_range g) as Hu.
  destruct (distribution g) as [u1 g1]. cbn [fst] in Hu.
  destruct (distribution g1) as [u2 g2].
  rewrite fsqrt_Some by lra. cbn [bind].
  assert (Hs : 0 <= sqrt u1 <= 1).
  { split; [apply sqrt_pos |]. rewrite <- sqrt_1. apply sqrt_le_1_alt. lra. }
  rewrite fasin_Some by lra. cbn [bind].
  set (theta := asin (sqrt u1)). set (phi := 2 * PI * u2).
  destruct (Normalize_Some (mkVector (sin theta * cos phi) (sin theta * sin phi) (cos theta)))
    as [_ E].
  { cbn [x_ y_ z_]. rewrite unit_sphere. lra. }
  rewrite E. cbn [bind]. now eexists _, _.
Qed.

(** C7. DiffuseBSDF::F(wo, wi) is the stored reflectance times 1/pi for
    every pair of directions; DiffuseBSDF::SampleF always returns, with
    pdf = wi.z / pi for the direction wi it sampled and the value
    F(wo, wi). *)
Theorem DiffuseBSDF_F_and_SampleF (r : Spectrum) (wo : Vector) (g : Generator) :
  (forall wo' wi', F (DiffuseBSDF r) wo' wi' = vscale r (1 / PI)) /\
  exists s g',
    SampleF Generator distribution (DiffuseBSDF r) wo g = Some (s, g') /\
    pdf s = z_ (wi s) / PI /\
    value s = F (DiffuseBSDF r) wo (wi s).
Proof.
  split.
  - intros wo' wi'. cbn [F]. unfold DiffuseBSDF_F, INV_PI.
    f_equal. field. apply PI_neq0.
  - cbn [SampleF]. unfold DiffuseBSDF_SampleF.
    destruct (CosineWeightedHemisphere_Some g) as [v [g' E]].
    rewrite E. cbn [bind]. exists (mkSample (DiffuseBSDF_F r wo v) v (CosTheta v * INV_PI)), g'.
    split; [reflexivity |]. cbn [pdf wi value F]. split; reflexivity.
Qed.

End DiffuseFacts.

Lemma DiffuseBSDF_F_and_SampleF_witness :
  let distribution := fun n : nat => (1 / 2, S n) in
  let r := mkVector 1 1 1 in
  let wo := mkVector 0 0 1 in
  (forall wo' wi', F (DiffuseBSDF r) wo' wi' = vscale r (1 / PI)) /\
  exists s g',
    SampleF nat distribution (DiffuseBSDF r) wo 0%nat = Some (s, g') /\
    pdf s = z_ (wi s) / PI /\
    value s = F (DiffuseBSDF r) wo (wi s).
Proof.
  intros distribution r wo.
  apply (DiffuseBSDF_F_and_SampleF nat distribution).
  intros n. cbn [distribution fst]. lra.
Defined.

(** ** RefractBSDF::SampleF *)

Lemma eta_sides_pos (etai_ etat_ : double) (wo : Vector) :
  0 < etai_ -> 0 < etat_ ->
  0 < etaIncident etai_ etat_ wo /\ 0 < etaTransmitted etai_ etat_ wo.
Proof.
  intros Hi Ht. unfold etaIncident, etaTransmitted.
  destruct (entering wo); split; assumption.
Qed.

Lemma AbsCosTheta_nonneg (w : Vector) : 0 <= AbsCosTheta w.
Proof. apply Rabs_pos. Qed.

Lemma sin2Transmitted_Some (etai_ etat_ : double) (wo : Vector) :
  0 < etai_ -> 0 < etat_ ->
  let eta := etaIncident etai_ etat_ wo / etaTransmitted etai_ etat_ wo in
  0 < eta /\
  sin2Transmitted etai_ etat_ wo =
    Some (eta * eta * fmax 0 (1 - AbsCosTheta wo * AbsCosTheta wo)).
Proof.
  intros Hi Ht eta.
  destruct (eta_sides_pos etai_ etat_ wo Hi Ht) as [Hei Het].
  split; [apply Rdiv_lt_0_compat; assumption |].
  unfold sin2Transmitted. rewrite fdiv_Some by lra. reflexivity.
Qed.

(** The body of [RefractBSDF::SampleF], split at the test of line 150. *)
Lemma RefractBSDF_SampleF_split (r : Spectrum) (etai_ etat_ : double) (wo : Vector) :
  RefractBSDF_SampleF r etai_ etat_ wo =
    (sint <- sin2Transmitted etai_ etat_ wo ;;
     if ltb sint 1 then
       re <- SampleF_re etai_ etat_ wo ;;
       d <- refracted etai_ etat_ wo ;;
       wi <- Normalize d ;;
       v <- vdiv (vscale r (1 - re)) (AbsCosTheta wi) ;;
       ret (mkSample v wi (1 - re))
     else
       v <- vdiv (vscale r 1) (AbsCosTheta (mirror wo)) ;;
       ret (mkSample v (mirror wo) 1)).
Proof.
  unfold RefractBSDF_SampleF, SampleF_re, refracted, sin2Transmitted.
  fold (entering wo). fold (etaIncident etai_ etat_ wo).
  fold (etaTransmitted etai_ etat_ wo).
  destruct (fdiv (etaIncident etai_ etat_ wo) (etaTransmitted etai_ etat_ wo))
    as [eta |]; [| reflexivity].
  cbn [bind ret].
  destruct (ltb _ 1); [| reflexivity].
  destruct (fsqrt _) as [cost |]; [| reflexivity].
  cbn [bind]. reflexivity.
Qed.

(** C8. Whenever the squared transmitted sine of line 147 is at least 1,
    RefractBSDF::SampleF takes the branch of total internal reflection:
    wi is the mirror image (-wo.x, -wo.y, wo.z), re is 1, pdf is re, and the
    value returned is (reflectance * re) / |cos(wi)|; off the grazing
    direction this is the finite value written out below. *)
Theorem RefractBSDF_SampleF_total_reflection
    (r : Spectrum) (etai_ etat_ : double) (wo : Vector) (sint : double) :
  sin2Transmitted etai_ etat_ wo = Some sint -> 1 <= sint ->
  let re := 1 in
  let wi := mkVector (- x_ wo) (- y_ wo) (z_ wo) in
  RefractBSDF_SampleF r etai_ etat_ wo =
    (v <- vdiv (vscale r re) (Rabs (z_ wi)) ;; ret (mkSample v wi re)) /\
  (z_ wo <> 0 ->
   RefractBSDF_SampleF r etai_ etat_ wo =
     Some (mkSample (mkVector (x_ r * re / Rabs (z_ wi))
                              (y_ r * re / Rabs (z_ wi))
                              (z_ r * re / Rabs (z_ wi))) wi re)).
Proof.
  intros Hs Hge re wi.
  assert (E : RefractBSDF_SampleF r etai_ etat_ wo =
              (v <- vdiv (vscale r re) (Rabs (z_ wi)) ;; ret (mkSample v wi re))).
  { rewrite RefractBSDF_SampleF_split, Hs. cbn [bind].
    rewrite ltb_false by assumption. reflexivity. }
  split; [exact E |].
  intros Hz. rewrite E. rewrite vdiv_Some; [reflexivity |].
  cbn [z_ wi]. now apply Rabs_no_R0.
Qed.

Lemma RefractBSDF_SampleF_total_reflection_witness :
  RefractBSDF_SampleF (mkVector 1 1 1) (3 / 2) 1 (mkVector (4 / 5) 0 (- (3 / 5))) =
    Some (mkSample (mkVector (1 * 1 / Rabs (- (3 / 5)))
                             (1 * 1 / Rabs (- (3 / 5)))
                             (1 * 1 / Rabs (- (3 / 5))))
                   (mkVector (- (4 / 5)) (- 0) (- (3 / 5))) 1).
Proof.
  refine (proj2 (RefractBSDF_SampleF_total_reflection
                   (mkVector 1 1 1) (3 / 2) 1 (mkVector (4 / 5) 0 (- (3 / 5)))
                   ((3 / 2) / 1 * ((3 / 2) / 1) * (1 - 3 / 5 * (3 / 5))) _ _) _).
  - unfold sin2Transmitted, etaIncident, etaTransmitted, entering, CosTheta, AbsCosTheta.
    cbn [z_]. rewrite ltb_true by lra. rewrite fdiv_Some by lra. cbn [bind ret].
    rewrite Rabs_left by lra. rewrite fmax_r by lra. unfold ret. f_equal. lra.
  - lra.
  - cbn [z_]. lra.
Defined.

(** The reflectance of the refraction branch, from the locals of lines
    139-152. *)
Lemma SampleF_re_value (etai_ etat_ : double) (wo : Vector) (sint : double) :
  0 < etai_ -> 0 < etat_ ->
  sin2Transmitted etai_ etat_ wo = Some sint -> sint < 1 ->
  SampleF_re etai_ etat_ wo =
    Some (reflectance (AbsCosTheta wo) (etaIncident etai_ etat_ wo)
                      (etaTransmitted etai_ etat_ wo) (sqrt (1 - sint))).
Proof.
  intros Hi Ht Hs Hlt.
  destruct (eta_sides_pos etai_ etat_ wo Hi Ht) as [Hei Het].
  unfold SampleF_re. rewrite Hs. cbn [bind].
  rewrite fsqrt_Some by lra. cbn [bind].
  apply inline_re_Some; try assumption.
  - apply AbsCosTheta_nonneg.
  - apply sqrt_lt_R0. lra.
Qed.



(** ** RefractBSDF at normal incidence, indices 1.0 and 1.5 *)

Lemma normal_entering : entering (mkVector 0 0 (-1)) = true.
Proof. unfold entering, CosTheta. cbn [z_]. apply ltb_true. lra. Qed.

Lemma normal_eta :
  etaIncident 1 1.5 (mkVector 0 0 (-1)) = 1 /\
  etaTransmitted 1 1.5 (mkVector 0 0 (-1)) = 1.5.
Proof. unfold etaIncident, etaTransmitted. now rewrite normal_entering. Qed.

Lemma normal_cosi : AbsCosTheta (mkVector 0 0 (-1)) = 1.
Proof. unfold AbsCosTheta. cbn [z_]. rewrite Rabs_left; lra. Qed.

Lemma normal_sint : sin2Transmitted 1 1.5 (mkVector 0 0 (-1)) = Some 0.
Proof.
  unfold sin2Transmitted. destruct normal_eta as [-> ->]. rewrite normal_cosi.
  rewrite (fdiv_eq 1 1.5 (2 / 3)) by lra. cbn [bind].
  rewrite fmax_l by lra. unfold ret. f_equal. lra.
Qed.

Lemma normal_re : SampleF_re 1 1.5 (mkVector 0 0 (-1)) = Some 0.04.
Proof.
  unfold SampleF_re. rewrite normal_sint. cbn [bind].
  rewrite (fsqrt_eq (1 - 0) 1) by lra. cbn [bind].
  destruct normal_eta as [-> ->]. rewrite normal_cosi.
  unfold inline_re. cbv zeta.
  rewrite (fdiv_eq _ _ 0.2) by lra. rewrite (fdiv_eq _ _ (-0.2)) by lra.
  cbn [bind]. unfold ret. f_equal. lra.
Qed.

Lemma normal_refracted :
  refracted 1 1.5 (mkVector 0 0 (-1)) = Some (mkVector 0 0 (- (1 / 3))).
Proof.
  unfold refracted. cbv zeta. destruct normal_eta as [-> ->].
  rewrite normal_cosi, normal_entering.
  rewrite (fdiv_eq 1 1.5 (2 / 3)) by lra. cbn [bind].
  rewrite fmax_l by lra.
  rewrite (fsqrt_eq _ 1) by lra. cbn [bind]. unfold ret, vadd, vscale.
  cbn [x_ y_ z_]. f_equal. apply Vector_eq; lra.
Qed.

Lemma normal_sample (r : Spectrum) :
  RefractBSDF_SampleF r 1 1.5 (mkVector 0 0 (-1)) =
    Some (mkSample (vscale r 0.96) (mkVector 0 0 (-1)) 0.96).
Proof.
  rewrite RefractBSDF_SampleF_split, normal_sint. cbn [bind].
  rewrite ltb_true by lra. rewrite normal_re, normal_refracted. cbn [bind].
  rewrite (Normalize_eq _ (mkVector 0 0 (-1)) (1 / 3)); cbn [x_ y_ z_]; try lra.
  cbn [bind]. unfold AbsCosTheta. cbn [z_].
  rewrite (vdiv_eq _ (vscale r 0.96) (Rabs (-1)));
    unfold vscale; cbn [x_ y_ z_]; try (rewrite Rabs_left by lra; lra).
  cbn [bind]. unfold ret. f_equal. apply Sample_eq; [reflexivity .. | lra].
Qed.

(** C2. The failing input.  For RefractBSDF with etai = 1.0 and etat = 1.5,
    SampleF at wo = (0, 0, -1) computes re = ((1-1.5)/(1+1.5))^2 = 0.04 and
    pdf = 1 - re = 0.96 and returns reflectance * 0.96, but the direction
    it produces is wi = (0, 0, -1): line 162 yields (0, 0, -1/3), whose
    normalisation is the mirror direction of line 166 and does not lie in
    the hemisphere of positive z. *)
Theorem RefractBSDF_SampleF_normal_incidence (r : Spectrum) :
  let wo := mkVector 0 0 (-1) in
  SampleF_re 1 1.5 wo = Some 0.04 /\
  0.04 = ((1 - 1.5) / (1 + 1.5)) * ((1 - 1.5) / (1 + 1.5)) /\
  refracted 1 1.5 wo = Some (mkVector 0 0 (- (1 / 3))) /\
  exists s, RefractBSDF_SampleF r 1 1.5 wo = Some s /\
    pdf s = 0.96 /\ value s = vscale r 0.96 /\
    wi s = mkVector 0 0 (-1) /\ wi s = mirror wo /\ ~ 0 < z_ (wi s).
Proof.
  intros wo. split; [apply normal_re |]. split; [lra |].
  split; [apply normal_refracted |].
  eexists. split; [apply normal_sample |].
  cbn [pdf wi value z_]. repeat split.
  - unfold mirror, wo. cbn [x_ y_ z_]. apply Vector_eq; cbn [x_ y_ z_]; lra.
  - lra.
Qed.

(** ** Where the sampling operations return *)

Lemma refracted_Some (etai_ etat_ : double) (wo : Vector) (sint : double) :
  0 < etai_ -> 0 < etat_ ->
  sin2Transmitted etai_ etat_ wo = Some sint -> sint < 1 ->
  exists d, refracted etai_ etat_ wo = Some d.
Proof.
  intros Hi Ht Hs Hlt.
  destruct (sin2Transmitted_Some etai_ etat_ wo Hi Ht) as [Heta E].
  rewrite E in Hs. inversion Hs as [Hst]. clear Hs E.
  destruct (eta_sides_pos etai_ etat_ wo Hi Ht) as [Hei Het].
  unfold refracted. cbv zeta. rewrite fdiv_Some by lra. cbn [bind].
  rewrite Hst. rewrite fsqrt_Some by lra. cbn [bind]. now eexists.
Qed.

(** After [Normalize], dividing by [|cos|] succeeds exactly when the vector
    normalised has a non-zero z. *)
Lemma Normalize_then_vdiv (d u : Vector) (p : double) :
  (exists s, (wi <- Normalize d ;;
              v <- vdiv u (AbsCosTheta wi) ;;
              ret (mkSample v wi p)) = Some s)
  <-> z_ d <> 0.
Proof.
  split.
  - intros [s Hs] Hz.
    destruct (Normalize d) as [w |] eqn:En; [| discriminate].
    cbn [bind] in Hs.
    destruct (Normalize_inv d w En) as [len [Hl ->]].
    unfold AbsCosTheta in Hs. cbn [z_] in Hs.
    rewrite Hz in Hs. unfold Rdiv in Hs. rewrite Rmult_0_l, Rabs_R0, vdiv_None in Hs.
    discriminate.
  - intros Hz.
    destruct (Normalize_Some d) as [Hl E]; [nra |].
    rewrite E. cbn [bind]. unfold AbsCosTheta. cbn [z_].
    rewrite vdiv_Some; [now eexists |].
    apply Rabs_no_R0. unfold Rdiv. apply Rmult_integral_contrapositive_currified.
    + assumption.
    + apply Rinv_neq_0_compat. lra.
Qed.

Lemma SampleF_re_Some (etai_ etat_ : double) (wo : Vector) (sint : double) :
  0 < etai_ -> 0 < etat_ ->
  sin2Transmitted etai_ etat_ wo = Some sint -> sint < 1 ->
  exists re, SampleF_re etai_ etat_ wo = Some re.
Proof.
  intros Hi Ht Hs Hlt.
  destruct (eta_sides_pos etai_ etat_ wo Hi Ht) as [Hei Het].
  unfold SampleF_re. rewrite Hs. cbn [bind].
  rewrite fsqrt_Some by lra. cbn [bind].
  rewrite inline_re_Some; [now eexists | assumption .. | |].
  - apply AbsCosTheta_nonneg.
  - apply sqrt_lt_R0. lra.
Qed.

(** [RefractBSDF::SampleF] with positive indices: where it returns. *)
Lemma RefractBSDF_SampleF_defined (r : Spectrum) (etai_ etat_ : double) (wo : Vector) :
  0 < etai_ -> 0 < etat_ ->
  exists sint, sin2Transmitted etai_ etat_ wo = Some sint /\
    ((exists s, RefractBSDF_SampleF r etai_ etat_ wo = Some s) <->
     if Rlt_dec sint 1
     then exists d, refracted etai_ etat_ wo = Some d /\ z_ d <> 0
     else z_ wo <> 0).
Proof.
  intros Hi Ht.
  destruct (sin2Transmitted_Some etai_ etat_ wo Hi Ht) as [_ Hs].
  eexists. split; [exact Hs |].
  set (sint := _ * _ * fmax 0 _) in *.
  rewrite RefractBSDF_SampleF_split, Hs. cbn [bind].
  destruct (Rlt_dec sint 1) as [Hlt | Hge].
  - rewrite ltb_true by assumption.
    destruct (SampleF_re_Some etai_ etat_ wo sint Hi Ht Hs Hlt) as [re ->].
    destruct (refracted_Some etai_ etat_ wo sint Hi Ht Hs Hlt) as [d ->].
    cbn [bind]. rewrite Normalize_then_vdiv. split.
    + intros Hz. now exists d.
    + intros [d' [E Hz]]. now inversion E.
  - rewrite ltb_false by lra.
    split.
    + intros [s Hsome] Hz.
      unfold AbsCosTheta, mirror in Hsome. cbn [z_] in Hsome.
      rewrite Hz, Rabs_R0, vdiv_None in Hsome. discriminate.
    + intros Hz. unfold AbsCosTheta, mirror. cbn [z_].
      rewrite vdiv_Some by now apply Rabs_no_R0. now eexists.
Qed.

(** A dielectric with indices 1.0 and 2.0 at normal incidence: the refracted
    vector of line 162 is the zero vector, and [SampleF] does not return. *)
Lemma RefractBSDF_SampleF_zero_refracted (r : Spectrum) :
  refracted 1 2 (mkVector 0 0 (-1)) = Some (mkVector 0 0 0) /\
  RefractBSDF_SampleF r 1 2 (mkVector 0 0 (-1)) = None.
Proof.
  assert (Hen : entering (mkVector 0 0 (-1)) = true) by apply normal_entering.
  assert (Hd : refracted 1 2 (mkVector 0 0 (-1)) = Some (mkVector 0 0 0)).
  { unfold refracted, etaIncident, etaTransmitted. cbv zeta.
    rewrite Hen, normal_cosi.
    rewrite (fdiv_eq 1 2 (1 / 2)) by lra. cbn [bind].
    rewrite fmax_l by lra. rewrite (fsqrt_eq _ 1) by lra. cbn [bind].
    unfold ret, vadd, vscale. cbn [x_ y_ z_]. f_equal. apply Vector_eq; lra. }
  split; [exact Hd |].
  destruct (RefractBSDF_SampleF_defined r 1 2 (mkVector 0 0 (-1)))
    as [sint [Hs Hiff]]; [lra | lra |].
  destruct (RefractBSDF_SampleF r 1 2 (mkVector 0 0 (-1))) as [s |]; [| reflexivity].
  exfalso.
  assert (Hex : exists s0 : Sample, Some s = Some s0) by now exists s.
  apply Hiff in Hex.
  assert (Hst : sint = 0).
  { unfold sin2Transmitted, etaIncident, etaTransmitted in Hs.
    rewrite Hen, normal_cosi in Hs.
    rewrite (fdiv_eq 1 2 (1 / 2)) in Hs by lra. cbn [bind] in Hs.
    rewrite fmax_l in Hs by lra. inversion Hs. lra. }
  destruct (Rlt_dec sint 1) as [_ | Hge]; [| lra].
  destruct Hex as [d [E Hz]]. rewrite Hd in E. inversion E. subst d.
  now apply Hz.
Qed.

Section WhereDefined.

Variable Generator : Type.
Variable distribution : Generator -> double * Generator.
Hypothesis distribution_range : forall g, 0 <= fst (distribution g) < 1.

(** C3 (as amended). F of every variant is computed without any division:
    it is the reflectance times 1/pi, or the zero spectrum.  SampleF runs
    without a division by zero in these cases: DiffuseBSDF, always;
    ReflectBSDF, exactly when wo.z is not 0; RefractBSDF with positive
    indices, in the branch of total internal reflection exactly when wo.z
    is not 0, and in the refraction branch as far as the reflectance re of
    lines 152-160 and the pdf = 1 - re of every sample returned. *)
Theorem SampleF_defined (b : BSDF) (wo : Vector) (g : Generator) :
  (forall wi, F b wo wi = vscale (r_ b) INV_PI \/ F b wo wi = mkVector 0 0 0) /\
  match b with
  | DiffuseBSDF r =>
      exists s g', SampleF Generator distribution b wo g = Some (s, g')
  | ReflectBSDF r =>
      (exists s g', SampleF Generator distribution b wo g = Some (s, g'))
      <-> z_ wo <> 0
  | RefractBSDF r etai_ etat_ =>
      0 < etai_ -> 0 < etat_ ->
      exists sint, sin2Transmitted etai_ etat_ wo = Some sint /\
        (1 <= sint ->
         ((exists s g', SampleF Generator distribution b wo g = Some (s, g'))
          <-> z_ wo <> 0)) /\
        (sint < 1 ->
         exists re, SampleF_re etai_ etat_ wo = Some re /\
           forall s g', SampleF Generator distribution b wo g = Some (s, g') ->
                        pdf s = 1 - re)
  end.
Proof.
  split.
  - intros wi. destruct b; [left | right | right]; reflexivity.
  - destruct b as [r | r | r etai_ etat_]; cbn [SampleF].
    + unfold DiffuseBSDF_SampleF.
      destruct (CosineWeightedHemisphere_Some Generator distribution distribution_range g)
        as [v [g' ->]].
      cbn [bind]. now eexists _, _.
    + rewrite <- ReflectBSDF_SampleF_defined with (r := r). split.
      * intros [s [g' H]].
        destruct (ReflectBSDF_SampleF r wo) as [s' |]; [now exists s' | discriminate].
      * intros [s ->]. cbn [bind]. now eexists _, _.
    + intros Hi Ht.
      destruct (RefractBSDF_SampleF_defined r etai_ etat_ wo Hi Ht) as [sint [Hs Hiff]].
      exists sint. split; [assumption |]. split.
      * intros Hge. destruct (Rlt_dec sint 1) as [Hlt | _]; [lra |].
        rewrite <- Hiff. split.
        -- intros [s [g' H]].
           destruct (RefractBSDF_SampleF r etai_ etat_ wo) as [s' |];
             [now exists s' | discriminate].
        -- intros [s ->]. cbn [bind]. now eexists _, _.
      * intros Hlt.
        destruct (SampleF_re_Some etai_ etat_ wo sint Hi Ht Hs Hlt) as [re Hre].
        exists re. split; [assumption |].
        intros s g' H.
        rewrite RefractBSDF_SampleF_split, Hs in H. cbn [bind] in H.
        rewrite ltb_true, Hre in H by assumption. cbn [bind] in H.
        destruct (refracted etai_ etat_ wo) as [d |]; [| discriminate].
        cbn [bind] in H.
        destruct (Normalize d) as [w |]; [| discriminate].
        cbn [bind] in H.
        destruct (vdiv _ _) as [v |]; [| discriminate].
        cbn [bind ret] in H. injection H as <- _. reflexivity.
Qed.

End WhereDefined.

Lemma SampleF_defined_witness :
  let distribution := fun n : nat => (1 / 2, S n) in
  let b := RefractBSDF (mkVector 1 1 1) (3 / 2) 1 in
  let wo := mkVector (4 / 5) 0 (- (3 / 5)) in
  exists sint, sin2Transmitted (3 / 2) 1 wo = Some sint /\
    (1 <= sint ->
     ((exists s g', SampleF nat distribution b wo 0%nat = Some (s, g'))
      <-> z_ wo <> 0)) /\
    (sint < 1 ->
     exists re, SampleF_re (3 / 2) 1 wo = Some re /\
       forall s g', SampleF nat distribution b wo 0%nat = Some (s, g') ->
                    pdf s = 1 - re).
Proof.
  intros distribution b wo.
  refine (proj2 (SampleF_defined nat distribution _ b wo 0%nat) _ _).
  - intros n. cbn [distribution fst]. lra.
  - lra.
  - lra.
Defined.

(** C3 (as stated) fails at the grazing direction wo = (1, 0, 0), a finite
    direction with wo.z = 0: ReflectBSDF::SampleF divides 1.0 by
    CosTheta(wi) = 0, and RefractBSDF::SampleF with the positive indices 1.0
    and 1.5 divides by AbsCosTheta(wi) = 0. *)
Lemma SampleF_grazing_division_by_zero :
  let wo := mkVector 1 0 0 in
  fdiv 1 (CosTheta (mirror wo)) = None /\
  ReflectBSDF_SampleF (mkVector 1 1 1) wo = None /\
  RefractBSDF_SampleF (mkVector 1 1 1) 1 1.5 wo = None.
Proof.
  intros wo. split; [apply fdiv_None |]. split.
  - now apply ReflectBSDF_SampleF_None.
  - destruct (RefractBSDF_SampleF_defined (mkVector 1 1 1) 1 1.5 wo)
      as [sint [Hs Hiff]]; [lra | lra |].
    destruct (RefractBSDF_SampleF (mkVector 1 1 1) 1 1.5 wo) as [s |]; [| reflexivity].
    exfalso.
    assert (Hex : exists s0 : Sample, Some s = Some s0) by now exists s.
    apply Hiff in Hex.
    destruct (sin2Transmitted_Some 1 1.5 wo) as [_ E]; [lra | lra |].
    rewrite E in Hs. inversion Hs as [Hst]. clear Hs E.
    assert (Hen : entering wo = false).
    { unfold entering, CosTheta, wo. cbn [z_]. apply ltb_false. lra. }
    unfold etaIncident, etaTransmitted, AbsCosTheta in Hst.
    rewrite Hen in Hst. unfold wo in Hst. cbn [z_] in Hst.
    rewrite Rabs_R0 in Hst. rewrite fmax_r in Hst by lra.
    destruct (Rlt_dec sint 1) as [Hlt | _].
    + lra.
    + apply Hex. reflexivity.
Qed.

(** ** Camera *)

Import Zebra.

(** [WorldToRaster] answers the sentinel on every direction with z <= 0. *)
Lemma WorldToRaster_behind (resolution : Point2i) (v : Vector) :
  z_ v <= 0 -> WorldToRaster resolution v = Some (mkPoint2i (-1) (-1)).
Proof. intros Hz. unfold WorldToRaster. now rewrite leb_true. Qed.

(** [RasterToWorld] returns a direction of negative z. *)
Lemma RasterToWorld_negative_z (resolution : Point2i) (p : Point2) :
  (0 < ix_ resolution)%Z -> (0 < iy_ resolution)%Z ->
  exists v, RasterToWorld resolution p = Some v /\ z_ v < 0.
Proof.
  intros Hx Hy. unfold RasterToWorld.
  apply IZR_lt in Hx, Hy.
  rewrite !fdiv_Some by lra. cbn [bind].
  set (a := px_ p / IZR (ix_ resolution) - 0.5).
  set (b := 0.5 - py_ p / IZR (iy_ resolution)).
  destruct (Normalize_Some (mkVector a b (-1))) as [Hl E].
  { cbn [x_ y_ z_]. nra. }
  rewrite E. eexists. split; [reflexivity |]. cbn [x_ y_ z_] in *.
  apply Rmult_lt_reg_r with (sqrt (a * a + b * b + -1 * -1)); [assumption |].
  unfold Rdiv. rewrite Rmult_assoc, Rinv_l by lra. lra.
Qed.

(** C10. For every raster coordinate p and every positive resolution,
    RasterToWorld(p) is a direction with a strictly negative z-component,
    WorldToRaster answers the sentinel (-1, -1) on every direction with
    z <= 0, and so WorldToRaster(RasterToWorld(p)) is the sentinel. *)
Theorem WorldToRaster_RasterToWorld (resolution : Point2i) (p : Point2) :
  (0 < ix_ resolution)%Z -> (0 < iy_ resolution)%Z ->
  (exists v, RasterToWorld resolution p = Some v /\ z_ v < 0) /\
  (forall v, z_ v <= 0 -> WorldToRaster resolution v = Some (mkPoint2i (-1) (-1))) /\
  (v <- RasterToWorld resolution p ;; WorldToRaster resolution v)
    = Some (mkPoint2i (-1) (-1)).
Proof.
  intros Hx Hy.
  destruct (RasterToWorld_negative_z resolution p Hx Hy) as [v [E Hz]].
  split; [now exists v |]. split.
  - intros v'. apply WorldToRaster_behind.
  - rewrite E. cbn [bind]. apply WorldToRaster_behind. lra.
Qed.

Lemma WorldToRaster_RasterToWorld_witness :
  (v <- RasterToWorld (mkPoint2i 512 512) (mkPoint2 100 200) ;;
   WorldToRaster (mkPoint2i 512 512) v)
    = Some (mkPoint2i (-1) (-1)).
Proof.
  apply (WorldToRaster_RasterToWorld (mkPoint2i 512 512) (mkPoint2 100 200));
    reflexivity.
Defined.


(** ** Replays on binary64

    The inputs on which the model departs from the specification, run
    through the binary64 copy of the same functions. *)

Module Replay.

Import Binary64.
Local Open Scope float_scope.

(** Equal indices at grazing incidence: the reflectance is 1. *)
Lemma FresnelDielectric_grazing_binary64 :
  FresnelDielectric 0 1 1 = 1.
Proof. vm_compute. reflexivity. Qed.

(** The mirror below the surface: the value is the negated reflectance. *)
Lemma ReflectBSDF_below_surface_binary64 :
  ReflectBSDF_SampleF (mkVector 1 1 1) (mkVector 0 0 (-1)) =
    mkSample (mkVector (-1) (-1) (-1)) (mkVector (-0) (-0) (-1)) 1.
Proof. vm_compute. reflexivity. Qed.

(** The mirror at the grazing direction: 1.0 / 0 is an infinity. *)
Lemma ReflectBSDF_grazing_binary64 :
  ReflectBSDF_SampleF (mkVector 1 1 1) (mkVector 1 0 0) =
    mkSample (mkVector infinity infinity infinity) (mkVector (-1) (-0) 0) 1.
Proof. vm_compute. reflexivity. Qed.

(** The dielectric at the grazing direction: total internal reflection and
    a division by |cos(wi)| = 0. *)
Lemma RefractBSDF_grazing_binary64 :
  RefractBSDF_SampleF (mkVector 1 1 1) 1 1.5 (mkVector 1 0 0) =
    mkSample (mkVector infinity infinity infinity) (mkVector (-1) (-0) 0) 1.
Proof. vm_compute. reflexivity. Qed.

(** The dielectric with indices 1.0 and 1.5 at normal incidence: the
    direction sampled is (0, 0, -1), and pdf is the double next to 0.96. *)
Lemma RefractBSDF_normal_incidence_binary64 :
  let s := RefractBSDF_SampleF (mkVector 1 1 1) 1 1.5 (mkVector 0 0 (-1)) in
  wi s = mkVector 0 0 (-1) /\ pdf s = 0x1.eb851eb851eb8p-1 /\
  (0 <? z_ (wi s)) = false.
Proof. vm_compute. repeat split. Qed.

(** The dielectric with indices 1.0 and 2.0 at normal incidence: the
    refracted vector of line 162 is the zero vector, and normalising it
    gives NaN. *)
Lemma RefractBSDF_zero_refracted_binary64 :
  wi (RefractBSDF_SampleF (mkVector 1 1 1) 1 2 (mkVector 0 0 (-1))) =
    mkVector nan nan nan.
Proof. vm_compute. reflexivity. Qed.

(** Equal indices 1.5 on binary64: at the cosine 2^-27 the rounded sint is
    1 and the reflectance is 1; at 2^-20 and at 1 it is 0; at 0.5 the
    rounded cost differs from the cosine in the last digit and the
    reflectance is positive, below 2^-100. *)
Lemma FresnelDielectric_equal_indices_binary64 :
  FresnelDielectric 0x1p-27 1.5 1.5 = 1 /\
  FresnelDielectric 0x1p-20 1.5 1.5 = 0 /\
  FresnelDielectric 1 1.5 1.5 = 0 /\
  (0 <? FresnelDielectric 0.5 1.5 1.5) = true /\
  (FresnelDielectric 0.5 1.5 1.5 <? 0x1p-100) = true.
Proof. vm_compute. repeat split. Qed.

(** Grazing incidence on binary64, into the denser medium and out of it. *)
Lemma FresnelDielectric_grazing_incidence_binary64 :
  FresnelDielectric 0 1 1.5 = 1 /\ FresnelDielectric 0 1.5 1 = 1.
Proof. vm_compute. split; reflexivity. Qed.

(** The dielectric with indices 1.0 and 1.5 at wo = (0.6, 0, -0.8): by
    Snell's law the sine of the transmitted angle is 0.6 / 1.5 = 0.4; the
    direction of line 162, normalised, has the sine 0.936. *)
Lemma RefractBSDF_oblique_binary64 :
  let s := RefractBSDF_SampleF (mkVector 1 1 1) 1 1.5
             (mkVector 0x1.3333333333333p-1 0 (-0x1.999999999999ap-1)) in
  (0x1.dp-1 <? x_ (wi s)) = true /\ (x_ (wi s) <? 0x1.ep-1) = true /\
  (z_ (wi s) <? 0) = true.
Proof. vm_compute. repeat split. Qed.

(** The refraction branch at wo = (1, 0, 0), indices 1.5 and 1.0: both
    polarisation terms are -1, re is 1 and pdf is 0. *)
Lemma RefractBSDF_grazing_refraction_binary64 :
  let s := RefractBSDF_SampleF (mkVector 1 1 1) 1.5 1 (mkVector 1 0 0) in
  pdf s = 0 /\ value s = mkVector 0 0 0.
Proof. vm_compute. split; reflexivity. Qed.

End Replay.


(** * Further properties of the code *)

(** ** FresnelDielectric: normal incidence, grazing incidence, the guard *)

(** X1. At normal incidence (cosine 1 or -1) and positive indices the
    reflectance is ((etat - etai) / (etat + etai))^2. *)
Theorem FresnelDielectric_normal_incidence (etai etat : double) :
  0 < etai -> 0 < etat ->
  let r0 := (etat - etai) / (etat + etai) in
  FresnelDielectric 1 etai etat = Some (r0 * r0) /\
  FresnelDielectric (-1) etat etai = Some (r0 * r0).
Proof.
  intros Hi Ht r0.
  assert (E : FresnelDielectric 1 etai etat = Some (r0 * r0)).
  { pose proof (FresnelDielectric_nonneg 1 etai etat Rle_0_1 Hi Ht) as E.
    cbv zeta in E. rewrite E. clear E.
    replace (1 - 1 * 1) with 0 by ring.
    rewrite fmax_l by lra. rewrite sqrt_0, Rmult_0_r.
    destruct (Rge_dec 0 1) as [Hge | _]; [lra |].
    replace (1 - 0 * 0) with 1 by ring. rewrite sqrt_1.
    f_equal. unfold reflectance, r0. cbv zeta.
    replace 0.5 with (1 / 2) by lra. field. lra. }
  split; [exact E |].
  rewrite FresnelDielectric_neg by lra.
  replace (- -1) with 1 by lra. exact E.
Qed.

Lemma FresnelDielectric_normal_incidence_witness :
  FresnelDielectric 1 1 (3 / 2) =
    Some ((3 / 2 - 1) / (3 / 2 + 1) * ((3 / 2 - 1) / (3 / 2 + 1))).
Proof. apply (FresnelDielectric_normal_incidence 1 (3 / 2)); lra. Defined.

(** X2. Grazing incidence.  For positive indices, whatever their order,
    FresnelDielectric(0, etai, etat) returns exactly 1: either the guard of
    line 62 fires, or both polarisation terms of lines 70-71 are -1. *)
Theorem FresnelDielectric_grazing_incidence (etai etat : double) :
  0 < etai -> 0 < etat ->
  FresnelDielectric 0 etai etat = Some 1 /\
  forall cost, 0 < cost ->
    inline_re etai etat 0 cost = Some (((-1) * (-1) + (-1) * (-1)) * 0.5).
Proof.
  intros Hi Ht. split; [now apply FresnelDielectric_grazing |].
  intros cost Hc. unfold inline_re. cbv zeta.
  assert (0 < etai * cost) by nra. assert (0 < etat * cost) by nra.
  rewrite (fdiv_eq _ _ (-1)) by lra. rewrite (fdiv_eq _ _ (-1)) by lra.
  reflexivity.
Qed.

Lemma FresnelDielectric_grazing_incidence_witness :
  FresnelDielectric 0 1 (3 / 2) = Some 1.
Proof. apply (FresnelDielectric_grazing_incidence 1 (3 / 2)); lra. Defined.

(** X3. The two sides of the critical angle.  For a cosine c in [0, 1] and
    positive indices, the transmitted sine st of lines 59-60 is defined and
    not negative.  On the way into the denser medium (etai < etat) it is
    below 1, so the guard of line 62 does not fire and the function returns
    the value of lines 64-73; on the way out (etat <= etai) the guard fires
    at c = 0. *)
Theorem FresnelDielectric_critical_angle (c etai etat : double) :
  0 <= c <= 1 -> 0 < etai -> 0 < etat ->
  exists st, sinTransmitted c etai etat = Some st /\ 0 <= st /\
    (etai < etat ->
     st < 1 /\
     FresnelDielectric c etai etat
     = Some (reflectance c etai etat (sqrt (fmax 0 (1 - st * st))))) /\
    (etat <= etai -> c = 0 -> 1 <= st).
Proof.
  intros [Hc0 Hc1] Hi Ht.
  rewrite sinTransmitted_nonneg by lra.
  pose proof (sint_nonneg c etai etat Hi Ht) as H0.
  pose proof (FresnelDielectric_nonneg c etai etat Hc0 Hi Ht) as E.
  cbv zeta in E.
  assert (Hs0 : 0 <= sqrt (fmax 0 (1 - c * c))) by apply sqrt_pos.
  assert (Hs1 : sqrt (fmax 0 (1 - c * c)) <= 1).
  { apply sqrt_le_1. rewrite fmax_0_nonneg by nra. nra. }
  assert (Hq : 0 < etai / etat) by (apply Rdiv_lt_0_compat; lra).
  set (sini := sqrt (fmax 0 (1 - c * c))) in *.
  set (st := etai / etat * sini) in *.
  exists st. split; [reflexivity |]. split; [assumption |]. split.
  - intros Hlt.
    assert (Hq1 : etai / etat < 1).
    { apply Rmult_lt_reg_r with etat; [assumption |].
      unfold Rdiv. rewrite Rmult_assoc, Rinv_l by lra. lra. }
    assert (Hst : st < 1) by (unfold st; nra).
    split; [assumption |]. rewrite E.
    destruct (Rge_dec st 1) as [Hge | _]; [lra |].
    rewrite fmax_0_nonneg by nra. reflexivity.
  - intros Hge ->.
    assert (Hq1 : 1 <= etai / etat).
    { apply Rmult_le_reg_r with etat; [assumption |].
      unfold Rdiv. rewrite Rmult_assoc, Rinv_l by lra. lra. }
    unfold st, sini. replace (1 - 0 * 0) with 1 by ring.
    rewrite fmax_r by lra. rewrite sqrt_1. lra.
Qed.

Lemma FresnelDielectric_critical_angle_witness :
  exists st, sinTransmitted (1 / 2) 1 (3 / 2) = Some st /\ 0 <= st /\
    (1 < 3 / 2 ->
     st < 1 /\
     FresnelDielectric (1 / 2) 1 (3 / 2)
     = Some (reflectance (1 / 2) 1 (3 / 2) (sqrt (fmax 0 (1 - st * st))))) /\
    (3 / 2 <= 1 -> 1 / 2 = 0 -> 1 <= st).
Proof. apply FresnelDielectric_critical_angle; lra. Defined.

(** ** Sampling: directions, lengths and weights *)

Lemma vdiv_inv (u v : Vector) (k : double) :
  vdiv u k = Some v ->
  k <> 0 /\ v = mkVector (x_ u / k) (y_ u / k) (z_ u / k).
Proof.
  intros H. assert (Hk : k <> 0).
  { intros ->. rewrite vdiv_None in H. discriminate. }
  split; [assumption |]. rewrite vdiv_Some in H by assumption. now inversion H.
Qed.

(** What [Normalize] returns has length 1. *)
Lemma Normalize_unit (v w : Vector) :
  Normalize v = Some w -> norm2 w = 1.
Proof.
  unfold Normalize. rewrite Length_Some. cbn [bind]. intros H.
  apply vdiv_inv in H. destruct H as [Hl ->].
  pose proof (norm2_nonneg v) as Hn. fold (norm2 v) in *.
  pose proof (sqrt_def (norm2 v) Hn) as Hs.
  set (len := sqrt (norm2 v)) in *.
  unfold norm2 at 1. cbn [x_ y_ z_].
  transitivity ((x_ v * x_ v + y_ v * y_ v + z_ v * z_ v) / (len * len));
    [field; assumption |].
  fold (norm2 v). rewrite Hs. field. rewrite <- Hs. nra.
Qed.

Lemma norm2_mirror (wo : Vector) : norm2 (mirror wo) = norm2 wo.
Proof. unfold norm2, mirror. cbn [x_ y_ z_]. ring. Qed.

Section SamplerFacts.

Variable Generator : Type.
Variable distribution : Generator -> double * Generator.

(** The uniform source produces samples in [0, 1). *)
Hypothesis distribution_range : forall g, 0 <= fst (distribution g) < 1.

(** The direction sampled, in terms of the two uniform samples drawn. *)
Lemma CosineWeightedHemisphere_spec (g : Generator) :
  let u1 := fst (distribution g) in
  let g1 := snd (distribution g) in
  let u2 := fst (distribution g1) in
  let g2 := snd (distribution g1) in
  exists v,
    CosineWeightedHemisphere Generator distribution g = Some (v, g2) /\
    x_ v = sqrt u1 * cos (2 * PI * u2) /\
    y_ v = sqrt u1 * sin (2 * PI * u2) /\
    z_ v = sqrt (1 - u1).
Proof.
  intros u1 g1 u2 g2. unfold CosineWeightedHemisphere.
  pose proof (distribution_range g) as Hu. fold u1 in Hu.
  subst u1 g1 u2 g2.
  destruct (distribution g) as [u1 g1]. cbn [fst snd] in *.
  destruct (distribution g1) as [u2 g2]. cbn [fst snd].
  rewrite fsqrt_Some by lra. cbn [bind].
  assert (Hs : 0 <= sqrt u1 <= 1).
  { split; [apply sqrt_pos |]. rewrite <- sqrt_1. apply sqrt_le_1_alt. lra. }
  rewrite fasin_Some by lra. cbn [bind].
  assert (Hsin : sin (asin (sqrt u1)) = sqrt u1) by (apply sin_asin; lra).
  assert (Hcos : cos (asin (sqrt u1)) = sqrt (1 - u1)).
  { rewrite cos_asin by lra. unfold Rsqr. rewrite sqrt_def by lra. reflexivity. }
  set (theta := asin (sqrt u1)) in *. set (phi := 2 * PI * u2).
  unfold Normalize. rewrite Length_Some. cbn [bind x_ y_ z_].
  rewrite unit_sphere, sqrt_1. rewrite vdiv_Some by lra. cbn [bind x_ y_ z_].
  eexists. split; [reflexivity |]. cbn [x_ y_ z_].
  rewrite Hsin, Hcos. repeat split; field.
Qed.

(** [DiffuseBSDF::SampleF] in terms of the direction sampled. *)
Lemma DiffuseBSDF_SampleF_total (r : Spectrum) (wo : Vector) (g : Generator) :
  exists s g',
    DiffuseBSDF_SampleF Generator distribution r wo g = Some (s, g') /\
    0 < z_ (wi s) /\
    (value s = DiffuseBSDF_F r wo (wi s) /\ pdf s = CosTheta (wi s) * INV_PI).
Proof.
  destruct (CosineWeightedHemisphere_spec g) as [v [E [_ [_ Hz]]]].
  pose proof (distribution_range g) as Hu.
  unfold DiffuseBSDF_SampleF. rewrite E. cbn [bind].
  eexists _, _. split; [reflexivity |]. cbn [wi pdf value].
  split; [| split; reflexivity]. rewrite Hz. apply sqrt_lt_R0. lra.
Qed.

(** X4. CosineWeightedHemisphere always returns, having drawn exactly two
    uniform samples; the direction it returns has length 1 and lies
    strictly above the surface, 0 < z <= 1. *)
Theorem CosineWeightedHemisphere_upper_unit (g : Generator) :
  let g2 := snd (distribution (snd (distribution g))) in
  exists v,
    CosineWeightedHemisphere Generator distribution g = Some (v, g2) /\
    norm2 v = 1 /\ 0 < z_ v <= 1.
Proof.
  intros g2.
  destruct (CosineWeightedHemisphere_spec g) as [v [E [_ [_ Hz]]]].
  fold g2 in E.
  pose proof (distribution_range g) as Hu.
  exists v. split; [exact E |]. split.
  - unfold CosineWeightedHemisphere in E.
    destruct (distribution g) as [a ga]. destruct (distribution ga) as [b gb].
    destruct (fsqrt a) as [s |]; [| discriminate]. cbn [bind] in E.
    destruct (fasin s) as [t |]; [| discriminate]. cbn [bind] in E.
    destruct (Normalize _) as [w |] eqn:En; [| discriminate].
    cbn [bind] in E. inversion E. subst w. now apply Normalize_unit in En.
  - rewrite Hz. split.
    + apply sqrt_lt_R0. lra.
    + apply sqrt_le_1. lra.
Qed.

(** X5. DiffuseBSDF::SampleF always returns, leaving the generator two
    draws further; the direction sampled lies strictly above the surface
    and the pdf is positive and at most 1/pi. *)
Theorem DiffuseBSDF_SampleF_pdf (r : Spectrum) (wo : Vector) (g : Generator) :
  let g2 := snd (distribution (snd (distribution g))) in
  exists s,
    DiffuseBSDF_SampleF Generator distribution r wo g = Some (s, g2) /\
    0 < z_ (wi s) /\
    0 < pdf s <= 1 / PI.
Proof.
  intros g2.
  destruct (CosineWeightedHemisphere_spec g) as [v [E [_ [_ Hz]]]].
  fold g2 in E.
  pose proof (distribution_range g) as Hu.
  unfold DiffuseBSDF_SampleF. rewrite E. cbn [bind].
  eexists. split; [reflexivity |]. cbn [wi pdf]. unfold CosTheta, INV_PI.
  rewrite Hz.
  assert (H0 : 0 < sqrt (1 - fst (distribution g))) by (apply sqrt_lt_R0; lra).
  assert (H1 : sqrt (1 - fst (distribution g)) <= 1).
  { apply sqrt_le_1. lra. }
  pose proof PI_RGT_0 as Hpi.
  assert (Hinv : 0 < / PI) by now apply Rinv_0_lt_compat.
  split; [assumption |].
  unfold Rdiv. split; [nra | nra].
Qed.

End SamplerFacts.

Lemma CosineWeightedHemisphere_upper_unit_witness :
  let distribution := fun n : nat => (1 / 2, S n) in
  exists v,
    CosineWeightedHemisphere nat distribution 0%nat = Some (v, 2%nat) /\
    norm2 v = 1 /\ 0 < z_ v <= 1.
Proof.
  intros distribution.
  apply (CosineWeightedHemisphere_upper_unit nat distribution).
  intros n. cbn [distribution fst]. lra.
Defined.

Lemma DiffuseBSDF_SampleF_pdf_witness :
  let distribution := fun n : nat => (1 / 2, S n) in
  exists s,
    DiffuseBSDF_SampleF nat distribution (mkVector 1 1 1) (mkVector 0 0 1) 0%nat
      = Some (s, 2%nat) /\
    0 < z_ (wi s) /\
    0 < pdf s <= 1 / PI.
Proof.
  intros distribution.
  apply (DiffuseBSDF_SampleF_pdf nat distribution).
  intros n. cbn [distribution fst]. lra.
Defined.

(** What [RefractBSDF::SampleF] returns, by branch. *)
Lemma RefractBSDF_SampleF_inv (r : Spectrum) (etai_ etat_ : double)
    (wo : Vector) (s : Sample) :
  RefractBSDF_SampleF r etai_ etat_ wo = Some s ->
  exists sint, sin2Transmitted etai_ etat_ wo = Some sint /\
    ((sint < 1 /\ exists re d,
        SampleF_re etai_ etat_ wo = Some re /\
        refracted etai_ etat_ wo = Some d /\
        Normalize d = Some (wi s) /\
        vdiv (vscale r (1 - re)) (AbsCosTheta (wi s)) = Some (value s) /\
        pdf s = 1 - re) \/
     (1 <= sint /\ wi s = mirror wo /\ pdf s = 1 /\
      vdiv (vscale r 1) (AbsCosTheta (mirror wo)) = Some (value s))).
Proof.
  rewrite RefractBSDF_SampleF_split. intros H.
  destruct (sin2Transmitted etai_ etat_ wo) as [sint |]; [| discriminate].
  cbn [bind] in H. exists sint. split; [reflexivity |].
  destruct (Rlt_dec sint 1) as [Hlt | Hge].
  - left. split; [assumption |]. rewrite ltb_true in H by assumption.
    destruct (SampleF_re etai_ etat_ wo) as [re |] eqn:Er; [| discriminate].
    cbn [bind] in H.
    destruct (refracted etai_ etat_ wo) as [d |] eqn:Ed; [| discriminate].
    cbn [bind] in H.
    destruct (Normalize d) as [w |] eqn:En; [| discriminate]. cbn [bind] in H.
    destruct (vdiv _ _) as [v |] eqn:Ev; [| discriminate].
    cbn [bind] in H. inversion H. subst s. cbn [wi value pdf].
    exists re, d. repeat split; assumption || reflexivity.
  - right. split; [lra |]. rewrite ltb_false in H by lra.
    destruct (vdiv _ _) as [v |] eqn:Ev; [| discriminate].
    cbn [bind] in H. inversion H. subst s. cbn [wi value pdf].
    repeat split; assumption || reflexivity.
Qed.

Lemma vscale_vdiv_cancel (u v : Vector) (k : double) :
  vdiv u k = Some v -> vscale v k = u.
Proof.
  intros H. apply vdiv_inv in H. destruct H as [Hk ->].
  destruct u as [x y z]. unfold vscale. cbn [x_ y_ z_].
  apply Vector_eq; field; assumption.
Qed.

Lemma vscale_vscale (u : Vector) (a b : double) :
  vscale (vscale u a) b = vscale u (a * b).
Proof. unfold vscale. cbn [x_ y_ z_]. apply Vector_eq; ring. Qed.

Section SampleFacts.

Variable Generator : Type.
Variable distribution : Generator -> double * Generator.

(** X6. Directions keep their length: whenever SampleF of any variant
    returns for a direction wo of length 1, the direction wi it hands back
    has length 1 (the sampled and the refracted directions are normalised,
    the mirror image keeps the length of wo). *)
Theorem SampleF_unit_direction (b : BSDF) (wo : Vector) (g g' : Generator)
    (s : Sample) :
  SampleF Generator distribution b wo g = Some (s, g') ->
  norm2 wo = 1 -> norm2 (wi s) = 1.
Proof.
  intros H Hwo. destruct b as [r | r | r etai_ etat_]; cbn [SampleF] in H.
  - unfold DiffuseBSDF_SampleF, CosineWeightedHemisphere in H.
    destruct (distribution g) as [u1 g1]. destruct (distribution g1) as [u2 g2].
    destruct (fsqrt u1) as [a |]; [| discriminate]. cbn [bind] in H.
    destruct (fasin a) as [t |]; [| discriminate]. cbn [bind] in H.
    destruct (Normalize _) as [w |] eqn:En; [| discriminate].
    cbn [bind] in H. inversion H. subst s. cbn [wi].
    now apply Normalize_unit in En.
  - destruct (ReflectBSDF_SampleF r wo) as [s' |] eqn:E; [| discriminate].
    cbn [bind] in H. inversion H. subst s'.
    unfold ReflectBSDF_SampleF in E.
    destruct (fdiv _ _) as [k |]; [| discriminate]. cbn [bind] in E.
    inversion E. cbn [wi]. fold (mirror wo). now rewrite norm2_mirror.
  - destruct (RefractBSDF_SampleF r etai_ etat_ wo) as [s' |] eqn:E; [| discriminate].
    cbn [bind] in H. inversion H. subst s'.
    apply RefractBSDF_SampleF_inv in E.
    destruct E as [sint [_ [[_ [re [d [_ [_ [En _]]]]]] | [_ [Ew _]]]]].
    + now apply Normalize_unit in En.
    + rewrite Ew. now rewrite norm2_mirror.
Qed.

(** The uniform source produces samples in [0, 1). *)
Hypothesis distribution_range : forall g, 0 <= fst (distribution g) < 1.

(** X7. The weight of a sample.  Whenever SampleF returns,
    value * |cos(wi)| = reflectance * pdf, so the estimator weight
    value * |cos(wi)| / pdf is the stored reflectance: for DiffuseBSDF and
    RefractBSDF on every input, for ReflectBSDF when wo.z > 0. *)
Theorem SampleF_weight (b : BSDF) (wo : Vector) (g g' : Generator) (s : Sample) :
  SampleF Generator distribution b wo g = Some (s, g') ->
  (forall r, b = ReflectBSDF r -> 0 < z_ wo) ->
  vscale (value s) (AbsCosTheta (wi s)) = vscale (r_ b) (pdf s).
Proof.
  intros H Hup. destruct b as [r | r | r etai_ etat_]; cbn [SampleF r_] in *.
  - destruct (DiffuseBSDF_SampleF_total Generator distribution distribution_range r wo g)
      as [s0 [g0 [E [Hz Hp]]]].
    rewrite E in H. inversion H. subst s0. clear H.
    unfold AbsCosTheta. rewrite Rabs_right by lra.
    destruct Hp as [-> ->]. unfold DiffuseBSDF_F, CosTheta.
    rewrite vscale_vscale. f_equal. ring.
  - specialize (Hup r eq_refl).
    rewrite ReflectBSDF_SampleF_Some in H by lra. cbn [bind] in H.
    inversion H. cbn [value wi pdf]. unfold AbsCosTheta, mirror. cbn [z_].
    rewrite Rabs_right by lra. rewrite vscale_vscale. f_equal. field. lra.
  - destruct (RefractBSDF_SampleF r etai_ etat_ wo) as [s' |] eqn:E; [| discriminate].
    cbn [bind] in H. inversion H. subst s'.
    apply RefractBSDF_SampleF_inv in E.
    destruct E as [sint [_ [[_ [re [d [_ [_ [_ [Ev ->]]]]]]] | [_ [-> [-> Ev]]]]]].
    + now apply vscale_vdiv_cancel in Ev.
    + now apply vscale_vdiv_cancel in Ev.
Qed.

End SampleFacts.

Lemma SampleF_unit_direction_witness :
  norm2 (wi (mkSample (vscale (mkVector 1 1 1) (1 / z_ (mkVector 0 0 1)))
                      (mirror (mkVector 0 0 1)) 1)) = 1.
Proof.
  apply (SampleF_unit_direction nat (fun n : nat => (1 / 2, S n))
           (ReflectBSDF (mkVector 1 1 1)) (mkVector 0 0 1) 0%nat 0%nat).
  - cbn [SampleF]. rewrite ReflectBSDF_SampleF_Some by (cbn [z_]; lra). reflexivity.
  - unfold norm2. cbn [x_ y_ z_]. lra.
Defined.

Lemma SampleF_weight_witness :
  let s := mkSample (vscale (mkVector 1 1 1) (1 / z_ (mkVector 0 0 1)))
                    (mirror (mkVector 0 0 1)) 1 in
  vscale (value s) (AbsCosTheta (wi s)) = vscale (mkVector 1 1 1) (pdf s).
Proof.
  intros s.
  apply (SampleF_weight nat (fun n : nat => (1 / 2, S n))
           (fun n => ltac:(cbn [fst]; lra))
           (ReflectBSDF (mkVector 1 1 1)) (mkVector 0 0 1) 0%nat 0%nat).
  - cbn [SampleF]. rewrite ReflectBSDF_SampleF_Some by (cbn [z_]; lra). reflexivity.
  - intros r _. cbn [z_]. lra.
Defined.

(** X8. The mirror is an involution: for wo.z <> 0, ReflectBSDF::SampleF
    applied to the direction wi it returned gives back wo, with the same
    value and pdf; wi has the cosine of wo. *)
Theorem ReflectBSDF_SampleF_involution (r : Spectrum) (wo : Vector) :
  z_ wo <> 0 ->
  exists s s',
    ReflectBSDF_SampleF r wo = Some s /\
    ReflectBSDF_SampleF r (wi s) = Some s' /\
    wi s' = wo /\ value s' = value s /\ pdf s' = pdf s /\
    CosTheta (wi s) = CosTheta wo.
Proof.
  intros Hz.
  exists (mkSample (vscale r (1 / z_ wo)) (mirror wo) 1).
  exists (mkSample (vscale r (1 / z_ (mirror wo))) (mirror (mirror wo)) 1).
  split; [now apply ReflectBSDF_SampleF_Some |]. cbn [wi value pdf].
  split; [now apply ReflectBSDF_SampleF_Some |].
  unfold mirror, CosTheta. cbn [x_ y_ z_].
  destruct wo as [x y z]. cbn [x_ y_ z_].
  repeat split. apply Vector_eq; lra.
Qed.

Lemma ReflectBSDF_SampleF_involution_witness :
  exists s s',
    ReflectBSDF_SampleF (mkVector 1 1 1) (mkVector (3 / 5) 0 (4 / 5)) = Some s /\
    ReflectBSDF_SampleF (mkVector 1 1 1) (wi s) = Some s' /\
    wi s' = mkVector (3 / 5) 0 (4 / 5) /\ value s' = value s /\ pdf s' = pdf s /\
    CosTheta (wi s) = CosTheta (mkVector (3 / 5) 0 (4 / 5)).
Proof. apply ReflectBSDF_SampleF_involution. cbn [z_]. lra. Defined.

(** ** RefractBSDF: the pdf, the two sides *)

(** X9. The pdf of the dielectric.  For positive indices, every sample
    RefractBSDF::SampleF returns has 0 <= pdf <= 1.  The pdf is 1 in the
    branch of total internal reflection, and it is 0 when the refraction
    branch is taken at wo.z = 0, where both polarisation terms are -1 and
    re is 1. *)
Theorem RefractBSDF_SampleF_pdf
    (r : Spectrum) (etai_ etat_ : double) (wo : Vector) (s : Sample) :
  0 < etai_ -> 0 < etat_ ->
  RefractBSDF_SampleF r etai_ etat_ wo = Some s ->
  0 <= pdf s <= 1 /\
  exists sint, sin2Transmitted etai_ etat_ wo = Some sint /\
    (1 <= sint -> pdf s = 1) /\
    (sint < 1 -> z_ wo = 0 -> pdf s = 0).
Proof.
  intros Hi Ht Hsample.
  destruct (eta_sides_pos etai_ etat_ wo Hi Ht) as [Hei Het].
  apply RefractBSDF_SampleF_inv in Hsample.
  destruct Hsample as [sint [Es Hcases]].
  destruct Hcases as [[Hlt [re [d [Ere [_ [_ [_ Hp]]]]]]] | [Hge [_ [Hp _]]]].
  - rewrite (SampleF_re_value etai_ etat_ wo sint Hi Ht Es Hlt) in Ere.
    injection Ere as Ere.
    assert (Hcost : 0 < sqrt (1 - sint)) by (apply sqrt_lt_R0; lra).
    pose proof (reflectance_range (AbsCosTheta wo) _ _ _ Hei Het
                  (AbsCosTheta_nonneg wo) Hcost) as Hr.
    rewrite Ere in Hr. split; [lra |].
    exists sint. split; [assumption |]. split; [lra |].
    intros _ Hz. rewrite Hp, <- Ere.
    unfold AbsCosTheta. rewrite Hz, Rabs_R0.
    rewrite reflectance_grazing by assumption. lra.
  - split; [lra |].
    exists sint. split; [assumption |]. split; [intros _; assumption | lra].
Qed.

Lemma RefractBSDF_SampleF_pdf_witness :
  let s := mkSample (vscale (mkVector 1 1 1) 0.96) (mkVector 0 0 (-1)) 0.96 in
  0 <= pdf s <= 1 /\
  exists sint, sin2Transmitted 1 1.5 (mkVector 0 0 (-1)) = Some sint /\
    (1 <= sint -> pdf s = 1) /\
    (sint < 1 -> z_ (mkVector 0 0 (-1)) = 0 -> pdf s = 0).
Proof.
  intros s.
  apply (RefractBSDF_SampleF_pdf (mkVector 1 1 1) 1 1.5 (mkVector 0 0 (-1)));
    [lra | lra | apply normal_sample].
Defined.

(** The refraction branch at wo.z = 0.  There [entering] is false, so
    etai = etat_ and etat = etai_; with etai_ = 1.5 and etat_ = 1.0 the
    squared sine is 4/9, the refraction branch is taken, and the sample
    returned at wo = (1, 0, 0) has pdf 0. *)
Lemma RefractBSDF_SampleF_grazing_pdf_zero (r : Spectrum) :
  exists s, RefractBSDF_SampleF r 1.5 1 (mkVector 1 0 0) = Some s /\ pdf s = 0.
Proof.
  set (wo := mkVector 1 0 0).
  assert (Hen : entering wo = false).
  { unfold entering, CosTheta, wo. cbn [z_]. apply ltb_false. lra. }
  destruct (sin2Transmitted_Some 1.5 1 wo) as [_ Es]; [lra | lra |].
  unfold etaIncident, etaTransmitted in Es. rewrite Hen in Es.
  unfold AbsCosTheta, wo in Es. cbn [z_] in Es. rewrite Rabs_R0 in Es.
  rewrite fmax_r in Es by lra. fold wo in Es.
  set (sint := 1 / 1.5 * (1 / 1.5) * (1 - 0 * 0)) in Es.
  assert (Hlt : sint < 1) by (unfold sint; lra).
  destruct (RefractBSDF_SampleF_defined r 1.5 1 wo) as [sint' [Es' Hiff]];
    [lra | lra |].
  rewrite Es in Es'. injection Es' as <-.
  destruct (Rlt_dec sint 1) as [_ | Hn]; [| lra].
  assert (Hex : exists s, RefractBSDF_SampleF r 1.5 1 wo = Some s).
  { apply Hiff.
    unfold refracted, etaIncident, etaTransmitted. cbv zeta. rewrite Hen.
    rewrite fdiv_Some by lra. cbn [bind].
    unfold AbsCosTheta, wo. cbn [z_]. rewrite Rabs_R0.
    rewrite fmax_r by lra. fold sint.
    rewrite fsqrt_Some by lra. cbn [bind].
    eexists. split; [reflexivity |].
    unfold vadd, vscale. cbn [x_ y_ z_].
    assert (0 < sqrt (1 - sint)) by (apply sqrt_lt_R0; lra). lra. }
  destruct Hex as [s Hs]. exists s. split; [exact Hs |].
  apply RefractBSDF_SampleF_inv in Hs.
  destruct Hs as [sint' [Es' [[_ [re [d [Ere [_ [_ [_ ->]]]]]]] | [Hge _]]]];
    rewrite Es in Es'; injection Es' as <-; [| lra].
  rewrite (SampleF_re_value 1.5 1 wo sint) in Ere by (assumption || lra).
  injection Ere as <-.
  unfold AbsCosTheta, wo. cbn [z_]. rewrite Rabs_R0.
  unfold etaIncident, etaTransmitted. fold wo. rewrite Hen.
  rewrite reflectance_grazing; [lra | lra | lra |].
  apply sqrt_lt_R0. lra.
Qed.

Lemma entering_flip (wo : Vector) :
  z_ wo <> 0 -> entering (flip wo) = negb (entering wo).
Proof.
  intros Hz. unfold entering, CosTheta, flip. cbn [z_].
  destruct (Rlt_dec (z_ wo) 0).
  - rewrite (ltb_true (z_ wo)), ltb_false by lra. reflexivity.
  - rewrite (ltb_false (z_ wo)), ltb_true by lra. reflexivity.
Qed.

Lemma AbsCosTheta_flip (w : Vector) : AbsCosTheta (flip w) = AbsCosTheta w.
Proof. unfold AbsCosTheta, flip. cbn [z_]. apply Rabs_Ropp. Qed.

Lemma eta_sides_flip (etai_ etat_ : double) (wo : Vector) :
  z_ wo <> 0 ->
  etaIncident etat_ etai_ (flip wo) = etaIncident etai_ etat_ wo /\
  etaTransmitted etat_ etai_ (flip wo) = etaTransmitted etai_ etat_ wo.
Proof.
  intros Hz. unfold etaIncident, etaTransmitted.
  rewrite entering_flip by assumption. now destruct (entering wo).
Qed.

Lemma Normalize_flip (d : Vector) :
  Normalize (flip d) =
    match Normalize d with Some w => Some (flip w) | None => None end.
Proof.
  unfold Normalize. rewrite !Length_Some. cbn [bind].
  replace (x_ (flip d) * x_ (flip d) + y_ (flip d) * y_ (flip d)
           + z_ (flip d) * z_ (flip d))
    with (x_ d * x_ d + y_ d * y_ d + z_ d * z_ d)
    by (unfold flip; cbn [x_ y_ z_]; ring).
  set (len := sqrt _).
  destruct (Req_dec_T len 0) as [-> | Hl].
  - now rewrite !vdiv_None.
  - rewrite !vdiv_Some by assumption. f_equal.
    unfold flip. cbn [x_ y_ z_]. apply Vector_eq; field; assumption.
Qed.

Lemma refracted_flip (etai_ etat_ : double) (wo : Vector) :
  z_ wo <> 0 ->
  refracted etat_ etai_ (flip wo) =
    match refracted etai_ etat_ wo with Some d => Some (flip d) | None => None end.
Proof.
  intros Hz. unfold refracted. cbv zeta.
  destruct (eta_sides_flip etai_ etat_ wo Hz) as [-> ->].
  rewrite AbsCosTheta_flip, entering_flip by assumption.
  destruct (fdiv _ _) as [eta |]; [| reflexivity]. cbn [bind].
  destruct (fsqrt _) as [cost |]; [| reflexivity]. cbn [bind].
  unfold ret, vadd, vscale, flip. cbn [x_ y_ z_]. f_equal.
  apply Vector_eq; destruct (entering wo); cbn [negb]; ring.
Qed.

(** X10. The two sides of the interface.  For wo.z <> 0, exchanging the two
    indices and reflecting wo through the surface (z to -z) gives the same
    value and pdf, and the direction wi reflected through the surface; the
    one call fails exactly when the other does. *)
Theorem RefractBSDF_SampleF_flip (r : Spectrum) (etai_ etat_ : double) (wo : Vector) :
  z_ wo <> 0 ->
  RefractBSDF_SampleF r etat_ etai_ (flip wo) =
    match RefractBSDF_SampleF r etai_ etat_ wo with
    | Some s => Some (mkSample (value s) (flip (wi s)) (pdf s))
    | None => None
    end.
Proof.
  intros Hz. rewrite !RefractBSDF_SampleF_split.
  assert (Es : sin2Transmitted etat_ etai_ (flip wo) = sin2Transmitted etai_ etat_ wo).
  { unfold sin2Transmitted.
    destruct (eta_sides_flip etai_ etat_ wo Hz) as [-> ->].
    now rewrite AbsCosTheta_flip. }
  assert (Er : SampleF_re etat_ etai_ (flip wo) = SampleF_re etai_ etat_ wo).
  { unfold SampleF_re. rewrite Es.
    destruct (eta_sides_flip etai_ etat_ wo Hz) as [-> ->].
    now rewrite AbsCosTheta_flip. }
  rewrite Es, Er, refracted_flip by assumption.
  destruct (sin2Transmitted etai_ etat_ wo) as [sint |]; [| reflexivity].
  cbn [bind]. destruct (ltb sint 1).
  - destruct (SampleF_re etai_ etat_ wo) as [re |]; [| reflexivity]. cbn [bind].
    destruct (refracted etai_ etat_ wo) as [d |]; [| reflexivity]. cbn [bind].
    rewrite Normalize_flip.
    destruct (Normalize d) as [w |]; [| reflexivity]. cbn [bind].
    rewrite AbsCosTheta_flip.
    destruct (vdiv _ _) as [v |]; reflexivity.
  - replace (AbsCosTheta (mirror (flip wo))) with (AbsCosTheta (mirror wo))
      by (unfold AbsCosTheta, mirror, flip; cbn [z_]; now rewrite Rabs_Ropp).
    destruct (vdiv _ _) as [v |]; reflexivity.
Qed.

Lemma RefractBSDF_SampleF_flip_witness :
  RefractBSDF_SampleF (mkVector 1 1 1) (3 / 2) 1 (flip (mkVector 0 0 (-1))) =
    match RefractBSDF_SampleF (mkVector 1 1 1) 1 (3 / 2) (mkVector 0 0 (-1)) with
    | Some s => Some (mkSample (value s) (flip (wi s)) (pdf s))
    | None => None
    end.
Proof. apply RefractBSDF_SampleF_flip. cbn [z_]. lra. Defined.

(** The z-component of the vector of line 162. *)
Lemma refracted_z (etai_ etat_ : double) (wo d : Vector) (sint : double) :
  0 < etai_ -> 0 < etat_ ->
  sin2Transmitted etai_ etat_ wo = Some sint -> sint < 1 ->
  refracted etai_ etat_ wo = Some d ->
  let eta := etaIncident etai_ etat_ wo / etaTransmitted etai_ etat_ wo in
  z_ d = (if entering wo then 1 else -1)
         * (sqrt (1 - sint) - 2 * eta * AbsCosTheta wo).
Proof.
  intros Hi Ht Hs Hlt Hd eta.
  destruct (sin2Transmitted_Some etai_ etat_ wo Hi Ht) as [_ E].
  rewrite E in Hs. injection Hs as Hs.
  destruct (eta_sides_pos etai_ etat_ wo Hi Ht) as [Hei Het].
  unfold refracted in Hd. cbv zeta in Hd.
  rewrite fdiv_Some in Hd by lra. cbn [bind] in Hd. fold eta in Hd, Hs.
  rewrite Hs in Hd. rewrite fsqrt_Some in Hd by lra. cbn [bind] in Hd.
  injection Hd as <-. unfold vadd, vscale. cbn [z_].
  unfold AbsCosTheta, entering, CosTheta.
  destruct (Rlt_dec (z_ wo) 0).
  - rewrite ltb_true by assumption. rewrite Rabs_left by assumption. ring.
  - rewrite ltb_false by lra. rewrite Rabs_right by lra. ring.
Qed.

(** The vector of line 162 against Snell's law.  For a unit wo its part in
    the plane of the surface is eta * (wo.x, wo.y), of length
    eta * sin(incident), the sine Snell's law asks for; but the vector is
    not of length 1: its squared length is
    1 + 4 eta cosi (eta cosi - cost), so that normalising it changes that
    sine unless eta cosi = cost or cosi = 0. *)
Lemma refracted_norm2 (etai_ etat_ : double) (wo d : Vector) (sint : double) :
  0 < etai_ -> 0 < etat_ -> norm2 wo = 1 ->
  sin2Transmitted etai_ etat_ wo = Some sint -> sint < 1 ->
  refracted etai_ etat_ wo = Some d ->
  let eta := etaIncident etai_ etat_ wo / etaTransmitted etai_ etat_ wo in
  let cosi := AbsCosTheta wo in
  let cost := sqrt (1 - sint) in
  x_ d = x_ wo * eta /\ y_ d = y_ wo * eta /\
  norm2 d = 1 + 4 * eta * cosi * (eta * cosi - cost).
Proof.
  intros Hi Ht Hwo Hs Hlt Hd eta cosi cost.
  pose proof (refracted_z etai_ etat_ wo d sint Hi Ht Hs Hlt Hd) as Hz.
  cbv zeta in Hz. fold eta cosi cost in Hz.
  destruct (sin2Transmitted_Some etai_ etat_ wo Hi Ht) as [_ E].
  rewrite E in Hs. injection Hs as Hs. fold eta cosi in Hs.
  destruct (eta_sides_pos etai_ etat_ wo Hi Ht) as [Hei Het].
  assert (Hxy : x_ d = x_ wo * eta /\ y_ d = y_ wo * eta).
  { unfold refracted in Hd. cbv zeta in Hd.
    rewrite fdiv_Some in Hd by lra. cbn [bind] in Hd.
    destruct (fsqrt _) as [c |]; [| discriminate]. cbn [bind] in Hd.
    injection Hd as <-. unfold vadd, vscale. cbn [x_ y_ z_]. fold eta.
    split; ring. }
  destruct Hxy as [Hx Hy]. split; [assumption |]. split; [assumption |].
  assert (Hc2 : cosi * cosi = z_ wo * z_ wo).
  { unfold cosi, AbsCosTheta. destruct (Rcase_abs (z_ wo)) as [Hn | Hp].
    - rewrite Rabs_left by assumption. ring.
    - rewrite Rabs_right by assumption. ring. }
  unfold norm2 in Hwo.
  assert (Hm : fmax 0 (1 - cosi * cosi) = 1 - cosi * cosi).
  { apply fmax_0_nonneg. rewrite Hc2. nra. }
  rewrite Hm in Hs.
  assert (Hcost : cost * cost = 1 - sint) by (apply sqrt_def; lra).
  assert (Hz2 : z_ d * z_ d = (cost - 2 * eta * cosi) * (cost - 2 * eta * cosi)).
  { rewrite Hz. destruct (entering wo); ring. }
  unfold norm2. rewrite Hx, Hy, Hz2.
  transitivity (eta * eta * (x_ wo * x_ wo + y_ wo * y_ wo)
                + cost * cost - 4 * eta * cosi * cost
                + 4 * (eta * eta) * (cosi * cosi)); [ring |].
  replace (x_ wo * x_ wo + y_ wo * y_ wo) with (1 - cosi * cosi)
    by (rewrite Hc2; lra).
  rewrite Hcost, <- Hs. ring.
Qed.

(** X11. Where the refraction branch loses its direction.  For positive
    indices and sint < 1, RefractBSDF::SampleF returns a sample exactly when
    2 * eta * |wo.z| differs from cost = sqrt(1 - sint); when the two are
    equal the vector of line 162 has z = 0 and the call ends in a division
    by zero. *)
Theorem RefractBSDF_SampleF_refraction_defined
    (r : Spectrum) (etai_ etat_ : double) (wo : Vector) (sint : double) :
  0 < etai_ -> 0 < etat_ ->
  sin2Transmitted etai_ etat_ wo = Some sint -> sint < 1 ->
  let eta := etaIncident etai_ etat_ wo / etaTransmitted etai_ etat_ wo in
  (exists s, RefractBSDF_SampleF r etai_ etat_ wo = Some s) <->
  2 * eta * AbsCosTheta wo <> sqrt (1 - sint).
Proof.
  intros Hi Ht Hs Hlt eta.
  destruct (RefractBSDF_SampleF_defined r etai_ etat_ wo Hi Ht) as [sint' [Hs' Hiff]].
  rewrite Hs in Hs'. injection Hs' as <-.
  destruct (Rlt_dec sint 1) as [_ | Hn]; [| contradiction].
  destruct (refracted_Some etai_ etat_ wo sint Hi Ht Hs Hlt) as [d Hd].
  pose proof (refracted_z etai_ etat_ wo d sint Hi Ht Hs Hlt Hd) as Hz.
  cbv zeta in Hz. fold eta in Hz.
  rewrite Hiff. split.
  - intros [d' [Hd' Hne]] Heq. rewrite Hd in Hd'. injection Hd' as <-.
    apply Hne. rewrite Hz, Heq. ring.
  - intros Hne. exists d. split; [assumption |]. rewrite Hz.
    destruct (entering wo); lra.
Qed.

Lemma RefractBSDF_SampleF_refraction_defined_witness :
  (exists s, RefractBSDF_SampleF (mkVector 1 1 1) 1 1.5 (mkVector 0 0 (-1)) = Some s) <->
  2 * (etaIncident 1 1.5 (mkVector 0 0 (-1)) / etaTransmitted 1 1.5 (mkVector 0 0 (-1)))
    * AbsCosTheta (mkVector 0 0 (-1)) <> sqrt (1 - 0).
Proof.
  apply (RefractBSDF_SampleF_refraction_defined (mkVector 1 1 1) 1 1.5
           (mkVector 0 0 (-1)) 0); [lra | lra | apply normal_sint | lra].
Defined.

(** ** Camera: rays, pixels and indices *)

(** The direction of a pixel, written out. *)
Lemma RasterToWorld_spec (resolution : Point2i) (p : Point2) :
  (0 < ix_ resolution)%Z -> (0 < iy_ resolution)%Z ->
  let a := px_ p / IZR (ix_ resolution) - 0.5 in
  let b := 0.5 - py_ p / IZR (iy_ resolution) in
  let len := sqrt (a * a + b * b + -1 * -1) in
  1 <= len /\
  RasterToWorld resolution p = Some (mkVector (a / len) (b / len) (-1 / len)).
Proof.
  intros Hx Hy a b len. apply IZR_lt in Hx, Hy.
  assert (Hl : 1 <= len).
  { unfold len. rewrite <- sqrt_1 at 1. apply sqrt_le_1_alt. nra. }
  split; [assumption |].
  unfold RasterToWorld. rewrite !fdiv_Some by lra. cbn [bind]. fold a b.
  destruct (Normalize_Some (mkVector a b (-1))) as [_ E].
  { cbn [x_ y_ z_]. nra. }
  exact E.
Qed.

Lemma Rdiv_le_iff (a b k : R) : 0 < b -> (a / b <= k <-> a <= k * b).
Proof.
  intros Hb. assert (E : a = a / b * b) by (field; lra).
  set (q := a / b) in *. clearbody q. subst a. split; intros H; nra.
Qed.

Lemma Rdiv_ge_iff (a b k : R) : 0 < b -> (k <= a / b <-> k * b <= a).
Proof.
  intros Hb. assert (E : a = a / b * b) by (field; lra).
  set (q := a / b) in *. clearbody q. subst a. split; intros H; nra.
Qed.

(** X12. The rays of the image.  For a positive resolution and a raster
    coordinate inside the image (0 <= x <= width, 0 <= y <= height),
    RasterToWorld returns a direction of length 1 that looks down the
    negative z axis, -1 <= z <= -4/5, with |x| <= 1/2 and |y| <= 1/2.  The
    left half of the image has x <= 0 and the right half x >= 0; the y
    axis is turned over: the upper half (small raster y) has y >= 0. *)
Theorem RasterToWorld_unit_forward (resolution : Point2i) (p : Point2) :
  (0 < ix_ resolution)%Z -> (0 < iy_ resolution)%Z ->
  0 <= px_ p <= IZR (ix_ resolution) ->
  0 <= py_ p <= IZR (iy_ resolution) ->
  exists v, RasterToWorld resolution p = Some v /\
    norm2 v = 1 /\
    -1 <= z_ v <= - (4 / 5) /\
    - (1 / 2) <= x_ v <= 1 / 2 /\
    - (1 / 2) <= y_ v <= 1 / 2 /\
    (px_ p * 2 <= IZR (ix_ resolution) -> x_ v <= 0) /\
    (IZR (ix_ resolution) <= px_ p * 2 -> 0 <= x_ v) /\
    (py_ p * 2 <= IZR (iy_ resolution) -> 0 <= y_ v) /\
    (IZR (iy_ resolution) <= py_ p * 2 -> y_ v <= 0).
Proof.
  intros Hx Hy Hpx Hpy.
  destruct (RasterToWorld_spec resolution p Hx Hy) as [Hl E].
  assert (Hunit : forall v, RasterToWorld resolution p = Some v -> norm2 v = 1).
  { intros v Ev. unfold RasterToWorld in Ev.
    destruct (fdiv _ _) as [qx |]; [| discriminate]. cbn [bind] in Ev.
    destruct (fdiv _ _) as [qy |]; [| discriminate]. cbn [bind] in Ev.
    now apply Normalize_unit in Ev. }
  specialize (Hunit _ E).
  apply IZR_lt in Hx, Hy.
  set (rx := IZR (ix_ resolution)) in *. set (ry := IZR (iy_ resolution)) in *.
  assert (Hqx : 0 <= px_ p / rx <= 1).
  { split; [apply Rdiv_ge_iff | apply Rdiv_le_iff]; lra. }
  assert (Hqy : 0 <= py_ p / ry <= 1).
  { split; [apply Rdiv_ge_iff | apply Rdiv_le_iff]; lra. }
  assert (Hhx : px_ p * 2 <= rx -> px_ p / rx <= 1 / 2).
  { intros H. apply Rdiv_le_iff; lra. }
  assert (Hhx' : rx <= px_ p * 2 -> 1 / 2 <= px_ p / rx).
  { intros H. apply Rdiv_ge_iff; lra. }
  assert (Hhy : py_ p * 2 <= ry -> py_ p / ry <= 1 / 2).
  { intros H. apply Rdiv_le_iff; lra. }
  assert (Hhy' : ry <= py_ p * 2 -> 1 / 2 <= py_ p / ry).
  { intros H. apply Rdiv_ge_iff; lra. }
  set (a := px_ p / rx - 0.5) in *. set (b := 0.5 - py_ p / ry) in *.
  assert (Ha : - (1 / 2) <= a <= 1 / 2) by (unfold a; lra).
  assert (Hb : - (1 / 2) <= b <= 1 / 2) by (unfold b; lra).
  assert (Hn : 0 <= a * a + b * b + -1 * -1) by nra.
  pose proof (sqrt_def _ Hn) as Hsq.
  set (len := sqrt (a * a + b * b + -1 * -1)) in *.
  assert (Hlen : len <= 5 / 4) by nra.
  assert (Hil : 4 / 5 <= / len <= 1).
  { assert (H0 : 0 < / len) by (apply Rinv_0_lt_compat; lra).
    assert (H1 : len * / len = 1) by (apply Rinv_r; lra).
    split; nra. }
  set (il := / len) in *.
  eexists. split; [exact E |]. split; [exact Hunit |].
  cbn [x_ y_ z_]. unfold Rdiv. fold il.
  split; [lra |].
  split; [split; nra |].
  split; [split; nra |].
  split; [intros H; apply Hhx in H; assert (a <= 0) by (unfold a; lra); nra |].
  split; [intros H; apply Hhx' in H; assert (0 <= a) by (unfold a; lra); nra |].
  split; [intros H; apply Hhy in H; assert (0 <= b) by (unfold b; lra); nra |].
  intros H; apply Hhy' in H; assert (b <= 0) by (unfold b; lra); nra.
Qed.

Lemma RasterToWorld_unit_forward_witness :
  exists v, RasterToWorld (mkPoint2i 512 512) (mkPoint2 100 200) = Some v /\
    norm2 v = 1 /\
    -1 <= z_ v <= - (4 / 5) /\
    - (1 / 2) <= x_ v <= 1 / 2 /\
    - (1 / 2) <= y_ v <= 1 / 2 /\
    (100 * 2 <= 512 -> x_ v <= 0) /\
    (512 <= 100 * 2 -> 0 <= x_ v) /\
    (200 * 2 <= 512 -> 0 <= y_ v) /\
    (512 <= 200 * 2 -> y_ v <= 0).
Proof.
  apply (RasterToWorld_unit_forward (mkPoint2i 512 512) (mkPoint2 100 200));
    cbn [ix_ iy_ px_ py_]; (reflexivity || lra).
Defined.

(** Truncation toward zero. *)
Lemma trunc_IZR (i : Z) : trunc (IZR i) = i.
Proof.
  unfold trunc. destruct (Rlt_dec (IZR i) 0) as [Hneg | Hnn].
  - rewrite <- opp_IZR.
    rewrite <- (Int_part_spec (IZR (- i)) (- i)%Z); [lia | lra].
  - symmetry. apply Int_part_spec. lra.
Qed.

Lemma trunc_nonneg_iff (a : R) : (0 <= trunc a)%Z <-> -1 < a.
Proof.
  unfold trunc. destruct (Rlt_dec a 0) as [Hneg | Hnn].
  - destruct (base_Int_part (- a)) as [H1 H2].
    set (f := Int_part (- a)) in *. clearbody f.
    assert (Hf : (0 <= f)%Z).
    { apply Z.lt_succ_r. apply lt_IZR. rewrite succ_IZR. lra. }
    split.
    + intros H. assert (f = 0%Z) by lia. subst f. lra.
    + intros H. assert (Hlt : (f < 1)%Z) by (apply lt_IZR; lra). lia.
  - destruct (base_Int_part a) as [H1 H2].
    split; [intros _; lra |]. intros _.
    apply Z.lt_succ_r. apply lt_IZR. rewrite succ_IZR. lra.
Qed.

Lemma trunc_lt_iff (a : R) (n : Z) :
  (0 < n)%Z -> ((trunc a < n)%Z <-> a < IZR n).
Proof.
  intros Hn. pose proof (IZR_lt _ _ Hn) as Hn'.
  unfold trunc. destruct (Rlt_dec a 0) as [Hneg | Hnn].
  - destruct (base_Int_part (- a)) as [H1 H2].
    set (f := Int_part (- a)) in *. clearbody f.
    assert (Hf : (0 <= f)%Z).
    { apply Z.lt_succ_r. apply lt_IZR. rewrite succ_IZR. lra. }
    split; [intros _; lra | intros _; lia].
  - destruct (base_Int_part a) as [H1 H2].
    set (t := Int_part a) in *. clearbody t. split.
    + intros H. assert (Hle : (t + 1 <= n)%Z) by lia.
      apply IZR_le in Hle. rewrite plus_IZR in Hle. lra.
    + intros H. apply lt_IZR. lra.
Qed.

Lemma to_int_range (a : R) (n : Z) :
  (n <= 2147483647)%Z -> (0 <= trunc a < n)%Z -> to_int a = Some (trunc a).
Proof.
  intros Hn Ht. unfold to_int. cbv zeta.
  destruct (Z.leb_spec (-2147483648) (trunc a)); [| lia].
  destruct (Z.leb_spec (trunc a) 2147483647); [| lia]. reflexivity.
Qed.

Lemma to_int_inv (a : R) (t : Z) : to_int a = Some t -> t = trunc a.
Proof.
  unfold to_int. cbv zeta. destruct (_ && _)%bool; [| discriminate].
  now intros H; inversion H.
Qed.

Lemma to_int_IZR (i : Z) : int_range i = true -> to_int (IZR i) = Some i.
Proof.
  intros H. unfold to_int. cbv zeta. rewrite trunc_IZR.
  unfold int_range in H. now rewrite H.
Qed.

(** In front of the camera, [WorldToRaster] converts the two products of
    lines 31-32. *)
Lemma WorldToRaster_front (resolution : Point2i) (v : Vector) :
  0 < z_ v ->
  WorldToRaster resolution v =
    (x <- to_int ((0.5 - x_ v) * IZR (ix_ resolution)) ;;
     y <- to_int ((0.5 + y_ v) * IZR (iy_ resolution)) ;;
     ret (mkPoint2i x y)).
Proof. intros Hz. unfold WorldToRaster. now rewrite leb_false. Qed.

(** The conversion to [int] of a product that is not negative: the
    largest integer below or at it. *)
Lemma to_int_floor (a : R) (t : Z) :
  to_int a = Some t -> 0 <= a -> IZR t <= a < IZR t + 1.
Proof.
  intros E Ha. apply to_int_inv in E. subst t. unfold trunc.
  destruct (Rlt_dec a 0) as [Hneg | _]; [lra |].
  destruct (base_Int_part a) as [H1 H2]. lra.
Qed.

(** Between -1 and 1 the conversion gives 0. *)
Lemma to_int_zero (a : R) : -1 < a < 1 -> to_int a = Some 0%Z.
Proof.
  intros [H1 H2].
  assert (Ht : trunc a = 0%Z).
  { pose proof (proj2 (trunc_nonneg_iff a) H1) as Hge.
    pose proof (proj2 (trunc_lt_iff a 1 ltac:(lia)) H2) as Hlt. lia. }
  unfold to_int. cbv zeta. rewrite Ht. reflexivity.
Qed.

(** X13. From a point of the scene to its pixel.  WorldToRaster of
    DirectionToCamera of a point P tests only the sign of P.z: a point
    with z >= 0 gets the sentinel (-1, -1), and a point with z < 0 gets
    the pixel (int((0.5 + P.x) * width), int((0.5 - P.y) * height)),
    whatever its depth: there is no perspective division.  Each coordinate
    of the pixel is the largest integer not above its product when the
    product is not negative.  For the point whose x and y are those of
    the ray of a raster coordinate p (the vector RasterToWorld
    normalises), the two products are p.x and p.y as real numbers; the
    pixel is their truncation, so a product that rounding leaves just
    below an integer gives the pixel before it. *)
Theorem WorldToRaster_DirectionToCamera (resolution : Point2i) (P : Point) :
  let A := (0.5 + ptx_ P) * IZR (ix_ resolution) in
  let B := (0.5 - pty_ P) * IZR (iy_ resolution) in
  (0 <= ptz_ P ->
   WorldToRaster resolution (DirectionToCamera P) = Some (mkPoint2i (-1) (-1))) /\
  (ptz_ P < 0 ->
   WorldToRaster resolution (DirectionToCamera P) =
     (x <- to_int A ;; y <- to_int B ;; ret (mkPoint2i x y)) /\
   (forall depth, depth < 0 ->
      WorldToRaster resolution
        (DirectionToCamera (mkPoint (ptx_ P) (pty_ P) depth)) =
      WorldToRaster resolution (DirectionToCamera P)) /\
   (forall q, WorldToRaster resolution (DirectionToCamera P) = Some q ->
      (0 <= A -> IZR (ix_ q) <= A < IZR (ix_ q) + 1) /\
      (0 <= B -> IZR (iy_ q) <= B < IZR (iy_ q) + 1))) /\
  (forall p : Point2,
     (0 < ix_ resolution)%Z -> (0 < iy_ resolution)%Z ->
     ptx_ P = px_ p / IZR (ix_ resolution) - 0.5 ->
     pty_ P = 0.5 - py_ p / IZR (iy_ resolution) ->
     A = px_ p /\ B = py_ p).
Proof.
  intros A B.
  assert (Efront : forall depth, depth < 0 ->
            WorldToRaster resolution
              (DirectionToCamera (mkPoint (ptx_ P) (pty_ P) depth)) =
            (x <- to_int A ;; y <- to_int B ;; ret (mkPoint2i x y))).
  { intros depth Hd.
    rewrite WorldToRaster_front
      by (unfold DirectionToCamera; cbn [z_ ptz_]; lra).
    unfold DirectionToCamera. cbn [x_ y_ ptx_ pty_].
    replace (0.5 - (0 - ptx_ P)) with (0.5 + ptx_ P) by lra.
    replace (0.5 + (0 - pty_ P)) with (0.5 - pty_ P) by lra.
    reflexivity. }
  assert (EP : ptz_ P < 0 ->
            WorldToRaster resolution (DirectionToCamera P) =
            (x <- to_int A ;; y <- to_int B ;; ret (mkPoint2i x y))).
  { intros Hd. rewrite <- (Efront (ptz_ P) Hd). now destruct P. }
  split; [| split].
  - intros Hz. apply WorldToRaster_behind.
    unfold DirectionToCamera. cbn [z_]. lra.
  - intros Hz. split; [now apply EP |]. split.
    + intros depth Hd. rewrite (Efront depth Hd). symmetry. now apply EP.
    + intros q Hq. rewrite (EP Hz) in Hq.
      destruct (to_int A) as [x |] eqn:Ex; [| discriminate]. cbn [bind] in Hq.
      destruct (to_int B) as [y |] eqn:Ey; [| discriminate]. cbn [bind] in Hq.
      injection Hq as <-. cbn [ix_ iy_].
      split; intros H0; now apply to_int_floor.
  - intros p Hx Hy Hpx Hpy. apply IZR_lt in Hx, Hy.
    unfold A, B. rewrite Hpx, Hpy.
    split; replace 0.5 with (1 / 2) by lra; field; lra.
Qed.

Lemma WorldToRaster_DirectionToCamera_witness :
  WorldToRaster (mkPoint2i 512 512)
    (DirectionToCamera (mkPoint (100 / 512 - 0.5) (0.5 - 200 / 512) (-3)))
  = Some (mkPoint2i 100 200).
Proof.
  pose proof (WorldToRaster_DirectionToCamera (mkPoint2i 512 512)
                (mkPoint (100 / 512 - 0.5) (0.5 - 200 / 512) (-3))) as H.
  cbv zeta in H. destruct H as [_ [H Harith]].
  destruct (H ltac:(cbn [ptz_]; lra)) as [E _].
  destruct (Harith (mkPoint2 100 200) eq_refl eq_refl eq_refl eq_refl) as [EA EB].
  rewrite E, EA, EB. cbn [px_ py_].
  rewrite (to_int_IZR 100 eq_refl). cbn [bind].
  rewrite (to_int_IZR 200 eq_refl). reflexivity.
Defined.

(** X14. The directions that hit the image.  For a resolution within the
    range of int, WorldToRaster returns a pixel that RasterIsValid accepts
    exactly when the direction points in front of the camera (z > 0) and
    the two products of lines 31-32 satisfy -1 < (0.5 - x) * width < width
    and -1 < (0.5 + y) * height < height.  The conversion to int truncates
    toward zero, so a product between -1 and 0, which belongs to a
    direction beyond the edge of the image, still lands on column (row)
    0. *)
Theorem WorldToRaster_valid_iff (resolution : Point2i) (v : Vector) :
  (0 < ix_ resolution <= 2147483647)%Z ->
  (0 < iy_ resolution <= 2147483647)%Z ->
  let A := (0.5 - x_ v) * IZR (ix_ resolution) in
  let B := (0.5 + y_ v) * IZR (iy_ resolution) in
  ((exists q, WorldToRaster resolution v = Some q /\
              RasterIsValid resolution q = true) <->
   0 < z_ v /\ -1 < A < IZR (ix_ resolution) /\ -1 < B < IZR (iy_ resolution)) /\
  (0 < z_ v -> -1 < A < 1 -> -1 < B < 1 ->
   WorldToRaster resolution v = Some (mkPoint2i 0 0)).
Proof.
  intros [Hx Hxm] [Hy Hym] A B.
  pose proof (IZR_lt _ _ Hx) as Hx'. pose proof (IZR_lt _ _ Hy) as Hy'.
  set (rx := ix_ resolution) in *. set (ry := iy_ resolution) in *.
  split.
  - assert (Ha : -1 < A < IZR rx <-> (0 <= trunc A < rx)%Z).
    { rewrite (trunc_nonneg_iff A), (trunc_lt_iff A rx Hx). tauto. }
    assert (Hb : -1 < B < IZR ry <-> (0 <= trunc B < ry)%Z).
    { rewrite (trunc_nonneg_iff B), (trunc_lt_iff B ry Hy). tauto. }
    rewrite Ha, Hb. split.
    + intros [q [E Hv]].
      destruct (Rle_dec (z_ v) 0) as [Hz | Hz].
      * rewrite WorldToRaster_behind in E by assumption. inversion E. subst q.
        unfold RasterIsValid in Hv. cbn in Hv. discriminate.
      * split; [lra |]. rewrite WorldToRaster_front in E by lra.
        fold rx ry in E. fold A B in E.
        destruct (to_int A) as [x |] eqn:Ex; [| discriminate]. cbn [bind] in E.
        destruct (to_int B) as [y |] eqn:Ey; [| discriminate]. cbn [bind] in E.
        inversion E. subst q. apply to_int_inv in Ex, Ey. subst x y.
        unfold RasterIsValid in Hv. cbn [ix_ iy_] in Hv. fold rx ry in Hv.
        apply andb_prop in Hv. destruct Hv as [Hv H4].
        apply andb_prop in Hv. destruct Hv as [Hv H3].
        apply andb_prop in Hv. destruct Hv as [H1 H2].
        apply Z.leb_le in H1, H2. apply Z.ltb_lt in H3, H4. lia.
    + intros [Hz [[H1 H3] [H2 H4]]].
      rewrite WorldToRaster_front by assumption. fold rx ry. fold A B.
      rewrite (to_int_range A rx) by lia. cbn [bind].
      rewrite (to_int_range B ry) by lia. cbn [bind].
      eexists. split; [reflexivity |].
      unfold RasterIsValid. cbn [ix_ iy_]. fold rx ry.
      apply Z.leb_le in H1, H2. apply Z.ltb_lt in H3, H4.
      now rewrite H1, H2, H3, H4.
  - intros Hz HA HB.
    rewrite WorldToRaster_front by assumption. fold rx ry. fold A B.
    rewrite (to_int_zero A HA). cbn [bind]. rewrite (to_int_zero B HB).
    reflexivity.
Qed.

Lemma WorldToRaster_valid_iff_witness :
  let A := (0.5 - x_ (mkVector 0 0 1)) * IZR 512 in
  let B := (0.5 + y_ (mkVector 0 0 1)) * IZR 512 in
  (exists q, WorldToRaster (mkPoint2i 512 512) (mkVector 0 0 1) = Some q /\
             RasterIsValid (mkPoint2i 512 512) q = true) <->
  0 < z_ (mkVector 0 0 1) /\ -1 < A < IZR 512 /\ -1 < B < IZR 512.
Proof.
  apply (WorldToRaster_valid_iff (mkPoint2i 512 512) (mkVector 0 0 1));
    cbn [ix_ iy_]; lia.
Defined.

Lemma RasterIsValid_inv (resolution q : Point2i) :
  RasterIsValid resolution q = true ->
  (0 <= ix_ q < ix_ resolution)%Z /\ (0 <= iy_ q < iy_ resolution)%Z.
Proof.
  unfold RasterIsValid. intros Hv.
  apply andb_prop in Hv. destruct Hv as [Hv H4].
  apply andb_prop in Hv. destruct Hv as [Hv H3].
  apply andb_prop in Hv. destruct Hv as [H1 H2].
  apply Z.leb_le in H1, H2. apply Z.ltb_lt in H3, H4. lia.
Qed.

Lemma int_checked_Some (z : Z) :
  (-2147483648 <= z <= 2147483647)%Z -> int_checked z = Some z.
Proof.
  intros H. unfold int_checked, int_range.
  destruct (Z.leb_spec (-2147483648) z); [| lia].
  destruct (Z.leb_spec z 2147483647); [| lia]. reflexivity.
Qed.

(** The index of a valid pixel. *)
Lemma RasterToIndex_spec (resolution q : Point2i) :
  (ix_ resolution * iy_ resolution <= 2147483647)%Z ->
  RasterIsValid resolution q = true ->
  RasterToIndex resolution q = Some (iy_ q * ix_ resolution + ix_ q)%Z /\
  (0 <= iy_ q * ix_ resolution + ix_ q < ix_ resolution * iy_ resolution)%Z.
Proof.
  intros Hm Hv. apply RasterIsValid_inv in Hv. destruct Hv as [Hx Hy].
  assert (Hb : (0 <= iy_ q * ix_ resolution
                /\ iy_ q * ix_ resolution + ix_ q < ix_ resolution * iy_ resolution)%Z)
    by nia.
  split; [| lia].
  unfold RasterToIndex. rewrite int_checked_Some by nia. cbn [bind].
  apply int_checked_Some. lia.
Qed.

(** X15. The flattened index.  When the image fits an int
    (width * height <= INT_MAX), RasterToIndex of a pixel that RasterIsValid
    accepts is y * width + x, without overflow; it lies in
    [0, width * height), x and y are recovered from it as index mod width
    and index / width, and so two valid pixels never share an index. *)
Theorem RasterToIndex_valid (resolution q : Point2i) :
  (ix_ resolution * iy_ resolution <= 2147483647)%Z ->
  RasterIsValid resolution q = true ->
  exists idx,
    RasterToIndex resolution q = Some idx /\
    (0 <= idx < ix_ resolution * iy_ resolution)%Z /\
    (idx mod ix_ resolution = ix_ q)%Z /\ (idx / ix_ resolution = iy_ q)%Z /\
    forall q', RasterIsValid resolution q' = true ->
               RasterToIndex resolution q' = Some idx -> q' = q.
Proof.
  intros Hm Hv.
  destruct (RasterToIndex_spec resolution q Hm Hv) as [E Hb].
  pose proof (RasterIsValid_inv _ _ Hv) as [Hx Hy].
  eexists. split; [exact E |]. split; [exact Hb |].
  assert (Hmod : ((iy_ q * ix_ resolution + ix_ q) mod ix_ resolution = ix_ q)%Z).
  { rewrite Z.add_comm, Z.mod_add by lia. now apply Z.mod_small. }
  assert (Hdiv : ((iy_ q * ix_ resolution + ix_ q) / ix_ resolution = iy_ q)%Z).
  { rewrite Z.div_add_l by lia. rewrite Z.div_small by lia. lia. }
  split; [exact Hmod |]. split; [exact Hdiv |].
  intros q' Hv' E'.
  destruct (RasterToIndex_spec resolution q' Hm Hv') as [E2 _].
  rewrite E2 in E'. injection E' as E'.
  pose proof (RasterIsValid_inv _ _ Hv') as [Hx' Hy'].
  assert (Hmod' : ((iy_ q' * ix_ resolution + ix_ q') mod ix_ resolution = ix_ q')%Z).
  { rewrite Z.add_comm, Z.mod_add by lia. now apply Z.mod_small. }
  assert (Hdiv' : ((iy_ q' * ix_ resolution + ix_ q') / ix_ resolution = iy_ q')%Z).
  { rewrite Z.div_add_l by lia. rewrite Z.div_small by lia. lia. }
  rewrite E' in Hmod', Hdiv'.
  destruct q as [x y], q' as [x' y']. cbn [ix_ iy_] in *. f_equal; lia.
Qed.

Lemma RasterToIndex_valid_witness :
  exists idx,
    RasterToIndex (mkPoint2i 512 512) (mkPoint2i 100 200) = Some idx /\
    (0 <= idx < 512 * 512)%Z /\
    (idx mod 512 = 100)%Z /\ (idx / 512 = 200)%Z /\
    forall q', RasterIsValid (mkPoint2i 512 512) q' = true ->
               RasterToIndex (mkPoint2i 512 512) q' = Some idx ->
               q' = mkPoint2i 100 200.
Proof.
  apply (RasterToIndex_valid (mkPoint2i 512 512) (mkPoint2i 100 200));
    [cbn [ix_ iy_]; lia | reflexivity].
Defined.

(** X16. Behind the camera.  For a direction with z <= 0 and any positive
    int width, the pixel WorldToRaster answers is rejected by RasterIsValid,
    and RasterToIndex of it is -width - 1, a negative index. *)
Theorem WorldToRaster_behind_index (resolution : Point2i) (v : Vector) :
  (0 < ix_ resolution <= 2147483647)%Z -> z_ v <= 0 ->
  exists q,
    WorldToRaster resolution v = Some q /\
    RasterIsValid resolution q = false /\
    RasterToIndex resolution q = Some (- ix_ resolution - 1)%Z /\
    (- ix_ resolution - 1 < 0)%Z.
Proof.
  intros Hx Hz. exists (mkPoint2i (-1) (-1)).
  split; [now apply WorldToRaster_behind |]. split; [reflexivity |].
  split; [| lia].
  unfold RasterToIndex. cbn [ix_ iy_].
  rewrite int_checked_Some by lia. cbn [bind].
  rewrite int_checked_Some by lia. f_equal; lia.
Qed.

Lemma WorldToRaster_behind_index_witness :
  exists q,
    WorldToRaster (mkPoint2i 512 512) (mkVector 0 0 (-1)) = Some q /\
    RasterIsValid (mkPoint2i 512 512) q = false /\
    RasterToIndex (mkPoint2i 512 512) q = Some (- 512 - 1)%Z /\
    (- 512 - 1 < 0)%Z.
Proof.
  apply (WorldToRaster_behind_index (mkPoint2i 512 512) (mkVector 0 0 (-1)));
    [cbn [ix_]; lia | cbn [z_]; lra].
Defined.

(** ** The dielectric and the mirror *)

(** X17. Total internal reflection against the mirror.  When the sint of
    line 147 is at least 1 and wo.z <> 0, RefractBSDF::SampleF returns the
    direction and the pdf that ReflectBSDF::SampleF returns for the same
    reflectance; the value is the same for wo.z > 0 and the opposite for
    wo.z < 0, where the mirror divides by the signed cosine. *)
Theorem RefractBSDF_total_reflection_vs_ReflectBSDF
    (r : Spectrum) (etai_ etat_ : double) (wo : Vector) (sint : double) :
  sin2Transmitted etai_ etat_ wo = Some sint -> 1 <= sint -> z_ wo <> 0 ->
  exists s m,
    RefractBSDF_SampleF r etai_ etat_ wo = Some s /\
    ReflectBSDF_SampleF r wo = Some m /\
    wi s = wi m /\ pdf s = pdf m /\
    (0 < z_ wo -> value s = value m) /\
    (z_ wo < 0 -> value s = vscale (value m) (-1)).
Proof.
  intros Hs Hge Hz.
  assert (Ha : AbsCosTheta (mirror wo) <> 0).
  { unfold AbsCosTheta, mirror. cbn [z_]. now apply Rabs_no_R0. }
  exists (mkSample (mkVector (x_ (vscale r 1) / AbsCosTheta (mirror wo))
                             (y_ (vscale r 1) / AbsCosTheta (mirror wo))
                             (z_ (vscale r 1) / AbsCosTheta (mirror wo)))
                   (mirror wo) 1).
  exists (mkSample (vscale r (1 / z_ wo)) (mirror wo) 1).
  split.
  { rewrite RefractBSDF_SampleF_split, Hs. cbn [bind].
    rewrite ltb_false by assumption. now rewrite vdiv_Some. }
  split; [now apply ReflectBSDF_SampleF_Some |].
  cbn [wi pdf value]. split; [reflexivity |]. split; [reflexivity |].
  unfold AbsCosTheta, mirror, vscale. cbn [x_ y_ z_]. split; intros H.
  - rewrite Rabs_right by lra. apply Vector_eq; field; lra.
  - rewrite Rabs_left by lra. apply Vector_eq; field; lra.
Qed.

Lemma RefractBSDF_total_reflection_vs_ReflectBSDF_witness :
  exists s m,
    RefractBSDF_SampleF (mkVector 1 1 1) (3 / 2) 1 (mkVector (4 / 5) 0 (- (3 / 5)))
      = Some s /\
    ReflectBSDF_SampleF (mkVector 1 1 1) (mkVector (4 / 5) 0 (- (3 / 5))) = Some m /\
    wi s = wi m /\ pdf s = pdf m /\
    (0 < z_ (mkVector (4 / 5) 0 (- (3 / 5))) -> value s = value m) /\
    (z_ (mkVector (4 / 5) 0 (- (3 / 5))) < 0 -> value s = vscale (value m) (-1)).
Proof.
  apply (RefractBSDF_total_reflection_vs_ReflectBSDF (mkVector 1 1 1) (3 / 2) 1
           (mkVector (4 / 5) 0 (- (3 / 5)))
           ((3 / 2) / 1 * ((3 / 2) / 1) * (1 - 3 / 5 * (3 / 5)))).
  - unfold sin2Transmitted, etaIncident, etaTransmitted, entering, CosTheta, AbsCosTheta.
    cbn [z_]. rewrite ltb_true by lra. rewrite fdiv_Some by lra. cbn [bind ret].
    rewrite Rabs_left by lra. rewrite fmax_r by lra. unfold ret. f_equal. lra.
  - lra.
  - cbn [z_]. lra.
Defined.
